(** * Shallow embedding of src/src/ply-sequence.ts

    The module registers three handlers on the editor's event bus:
    [plysequence.setFrames] ([setFrames]), [timeline.frame] ([setFrame]) and
    [plysequence.export].  The closure variables of [registerPlySequenceEvents]
    become the fields of the record [ctl]; every [await] of [setFrame] becomes a
    suspended process ([proc]) that the environment resumes later with the
    outcome of the awaited promise.  Between two suspension points the code runs
    atomically, so each resumption is one function application. *)

From Stdlib Require Import ZArith List Lia Bool Ascii String Sorting.
From stdpp Require Import base list gmap strings.
Import ListNotations.
Open Scope Z_scope.

(** ** Observable effects

    One event type for everything the module does that a caller can observe:
    calls into collaborators, fired events, popups. *)
Inductive event :=
  | EvFrames (n : nat)                 (* events.fire('timeline.frames', n) *)
  | EvImport (frame : Z) (name : string) (* events.invoke('import', [file]) *)
  | EvFirstRender (s : nat)            (* the sorter of splat [s] reported 'updated' *)
  | EvDestroy (s : nat)                (* sequenceSplat.destroy() *)
  | EvSceneClear                       (* events.fire('scene.clear') *)
  | EvLoad (i : nat) (loc : nat)       (* assetLoader.load for export frame i *)
  | EvAttach (loc : nat)               (* splat.scene = scene; transform; makeWorldBoundDirty *)
  | EvOpen (i : nat)                   (* getFileHandle + createWritable + new FileStreamWriter *)
  | EvSerialized (i : nat)             (* serializePly resolved *)
  | EvProgress (i : Z)                 (* progressFunc(i) *)
  | EvCloseCall (i : nat)              (* writer.close() invoked *)
  | EvClosed (i : nat)                 (* writer.close() resolved *)
  | EvProgressStart
  | EvProgressEnd
  | EvPopupSuccess
  | EvPopupError (msg : string)
  | EvWarn.

(** ** Frame Registry: the sort key of [setFrames]

    [regex = /(.*?)(\d+)(?:\.compressed)?\.ply$/], applied to
    [name.toLowerCase()]; [match(regex)?.[2]] is group 2. *)
Module Regex.

Definition lower (c : ascii) : ascii :=
  let n := nat_of_ascii c in
  if (65 <=? n)%nat && (n <=? 90)%nat then ascii_of_nat (n + 32) else c.

Definition toLowerCase (s : string) : list ascii := map lower (list_ascii_of_string s).

Definition is_digit (c : ascii) : bool :=
  let n := nat_of_ascii c in (48 <=? n)%nat && (n <=? 57)%nat.

(** [\d+] can consume at most this many characters from here. *)
Fixpoint digit_run (s : list ascii) : nat :=
  match s with
  | c :: s' => if is_digit c then S (digit_run s') else 0
  | [] => 0
  end.

(** [(?:\.compressed)?\.ply$]: the optional group is tried first. *)
Definition suffix_ok (rest : list ascii) : bool :=
  bool_decide (rest = list_ascii_of_string ".compressed.ply")
  || bool_decide (rest = list_ascii_of_string ".ply").

(** Greedy [(\d+)] with backtracking: try [k] digits, then [k-1], ... *)
Fixpoint try_digits (k : nat) (s : list ascii) : option (list ascii) :=
  match k with
  | O => None
  | S k' => if suffix_ok (drop k s) then Some (take k s) else try_digits k' s
  end.

Definition match_at (s : list ascii) : option (list ascii) :=
  try_digits (digit_run s) s.

(** Lazy [(.*?)]: group 1 grows one character at a time. *)
Fixpoint group2 (s : list ascii) : option (list ascii) :=
  match match_at s with
  | Some g => Some g
  | None => match s with [] => None | _ :: s' => group2 s' end
  end.

End Regex.

(** JavaScript numbers as produced by [parseInt] on a digit string: the
    nearest double (ties to even), or [Infinity] beyond the double range. *)
Inductive jsnum := JFin (z : Z) | JInf.

Definition round_double (n : Z) : jsnum :=
  if n <? 2 ^ 53 then JFin n else
  let sh := Z.log2 n - 52 in
  let q := Z.shiftr n sh in
  let r := n - Z.shiftl q sh in
  let half := Z.shiftl 1 (sh - 1) in
  let q' := if r >? half then q + 1
            else if r =? half then (if Z.odd q then q + 1 else q) else q in
  let v := Z.shiftl q' sh in
  if v >=? 2 ^ 1024 then JInf else JFin v.

Fixpoint decimal_value_rev (ds : list ascii) : Z :=
  match ds with
  | [] => 0
  | d :: ds' => Z.of_nat (nat_of_ascii d - 48) + 10 * decimal_value_rev ds'
  end.

Definition parseInt10 (ds : list ascii) : jsnum := round_double (decimal_value_rev (rev ds)).

(** The sort key of a file: [parseInt(name.toLowerCase().match(regex)?.[2], 10)]. *)
Definition frame_number (name : string) : option jsnum :=
  match Regex.group2 (Regex.toLowerCase name) with
  | Some ds => Some (parseInt10 ds)
  | None => None
  end.

(** Sign of [parseInt(a) - parseInt(b)] as [Array.prototype.sort] reads it:
    [Infinity - Infinity] is [NaN], which the sort treats as [+0]. *)
Definition jsnum_sub_sign (a b : jsnum) : comparison :=
  match a, b with
  | JFin x, JFin y => Z.compare x y
  | JInf, JInf => Eq
  | JFin _, JInf => Lt
  | JInf, JFin _ => Gt
  end.

(** The order of JavaScript numbers on the values [parseInt] yields. *)
Definition jsnum_le (a b : jsnum) : bool :=
  match a, b with
  | JFin x, JFin y => x <=? y
  | _, JInf => true
  | JInf, JFin _ => false
  end.

(** [sorter] of [setFrames]. *)
Definition sorter (a b : string) : comparison :=
  match frame_number a, frame_number b with
  | Some x, Some y => jsnum_sub_sign x y
  | _, _ => Eq
  end.

(** [Array.prototype.sort] with a comparator: a stable sort (required since
    ES2019).  For a consistent comparator the stable sorted permutation is
    unique, so every conforming engine returns what this insertion sort
    returns. *)
Fixpoint sort_insert {A} (cmp : A -> A -> comparison) (x : A) (l : list A) : list A :=
  match l with
  | [] => [x]
  | y :: l' => match cmp x y with
               | Lt => x :: y :: l'
               | _ => y :: sort_insert cmp x l'
               end
  end.

Definition js_sort {A} (cmp : A -> A -> comparison) (l : list A) : list A :=
  fold_left (fun acc x => sort_insert cmp x acc) l [].

(** ** Frame Controller *)

(** The closure state of [registerPlySequenceEvents].  JavaScript arrays of
    [File] live in [c_arrays] (a file is identified by its name) so that
    [sequenceFiles] is a reference, as in the source. *)
Record ctl := mkCtl {
  c_arrays : gmap nat (list string);
  c_next_arr : nat;            (* next free array reference *)
  c_seq : nat;                 (* sequenceFiles *)
  c_splat : option nat;        (* sequenceSplat (null = None) *)
  c_frame : Z;                 (* sequenceFrame *)
  c_loading : bool;            (* sequenceLoading *)
  c_next : Z;                  (* nextFrame *)
  c_dirty : bool;              (* current answer of events.invoke('scene.dirty') *)
  c_fresh : nat;               (* id of the next splat the import collaborator creates *)
  c_trace : list event }.

Definition seqFiles (c : ctl) : list string := default [] (c_arrays c !! c_seq c).

Definition ctl_init : ctl :=
  mkCtl {[0%nat := []]} 1 0 None (-1) false (-1) false 0 [].

Definition emit_ctl (c : ctl) (evs : list event) : ctl :=
  mkCtl (c_arrays c) (c_next_arr c) (c_seq c) (c_splat c) (c_frame c) (c_loading c)
        (c_next c) (c_dirty c) (c_fresh c) (c_trace c ++ evs).
Definition set_next (c : ctl) (n : Z) : ctl :=
  mkCtl (c_arrays c) (c_next_arr c) (c_seq c) (c_splat c) (c_frame c) (c_loading c)
        n (c_dirty c) (c_fresh c) (c_trace c).
Definition set_loading (c : ctl) (b : bool) : ctl :=
  mkCtl (c_arrays c) (c_next_arr c) (c_seq c) (c_splat c) (c_frame c) b
        (c_next c) (c_dirty c) (c_fresh c) (c_trace c).
Definition set_splat (c : ctl) (s : option nat) : ctl :=
  mkCtl (c_arrays c) (c_next_arr c) (c_seq c) s (c_frame c) (c_loading c)
        (c_next c) (c_dirty c) (c_fresh c) (c_trace c).
Definition set_dirty (c : ctl) (b : bool) : ctl :=
  mkCtl (c_arrays c) (c_next_arr c) (c_seq c) (c_splat c) (c_frame c) (c_loading c)
        (c_next c) b (c_fresh c) (c_trace c).

(** [setFrames(files)] where [files] is the caller's array at reference [src]:
    [files.slice()] allocates a copy, [sort] sorts the copy in place,
    [sequenceFiles] is rebound to it and the count is announced. *)
Definition setFrames (c : ctl) (src : nat) : ctl :=
  let files := default [] (c_arrays c !! src) in
  let copy := c_next_arr c in
  let arrays1 := <[copy := files]> (c_arrays c) in
  let arrays2 := <[copy := js_sort sorter (default [] (arrays1 !! copy))]> arrays1 in
  mkCtl arrays2 (S copy) copy (c_splat c) (c_frame c) (c_loading c)
        (c_next c) (c_dirty c) (c_fresh c)
        (c_trace c ++ [EvFrames (length (default [] (arrays2 !! copy)))]).

(** A call of [setFrame] suspended at one of its [await]s, or finished. *)
Inductive proc :=
  | PDone                          (* the returned promise resolved *)
  | PFailed (e : string)           (* the returned promise rejected *)
  | PAwaitPopup (frame : Z)        (* await events.invoke('showPopup', yesno) *)
  | PAwaitImport (frame : Z)       (* await events.invoke('import', ...) *)
  | PAwaitRender (frame : Z) (s : nat). (* await firstRender(newSplat[0]) *)

(** Lines 160-166 up to the [await] of the import: the flag is set first, then
    [sequenceFiles[frame].name] is read (a [TypeError] when the index is out
    of range), then the import collaborator is invoked. *)
Definition start_load (c : ctl) (frame : Z) : ctl * proc :=
  let c1 := set_loading c true in
  match seqFiles c1 !! Z.to_nat frame with
  | Some name => (emit_ctl c1 [EvImport frame name], PAwaitImport frame)
  | None => (c1, PFailed "TypeError")
  end.

Definition in_range (c : ctl) (frame : Z) : bool :=
  (0 <=? frame) && (frame <? Z.of_nat (length (seqFiles c))).

(** [setFrame(frame)] from its entry up to its first [await]. *)
Definition setFrame_entry (c : ctl) (frame : Z) : ctl * proc :=
  if negb (in_range c frame) then (c, PDone)
  else if c_loading c then (set_next c frame, PDone)
  else if frame =? c_frame c then (c, PDone)
  else if c_dirty c then (c, PAwaitPopup frame)
  else start_load c frame.

(** Resumption after the popup: [result.action === 'yes'] or not. *)
Definition resume_popup (c : ctl) (frame : Z) (yes : bool) : ctl * proc :=
  if yes then start_load (set_splat (emit_ctl c [EvSceneClear]) None) frame
  else (c, PDone).

(** Outcome of [await events.invoke('import', ...)]: a non-empty array of
    splats, an empty array (then [firstRender(newSplat[0])] throws a
    [TypeError] synchronously), or a rejection. *)
Inductive import_outcome := IOk | IEmpty | IErr (e : string).

Definition resume_import (c : ctl) (frame : Z) (o : import_outcome) : ctl * proc :=
  match o with
  | IOk =>
      let s := c_fresh c in
      (mkCtl (c_arrays c) (c_next_arr c) (c_seq c) (c_splat c) (c_frame c) (c_loading c)
             (c_next c) (c_dirty c) (S s) (c_trace c), PAwaitRender frame s)
  | IEmpty => (c, PFailed "TypeError")
  | IErr e => (c, PFailed e)
  end.

(** Lines 176-182, after the first render of [s]. *)
Definition adopt_frame (c : ctl) (frame : Z) (s : nat) : ctl :=
  let destroyed := match c_splat c with Some p => [EvDestroy p] | None => [] end in
  mkCtl (c_arrays c) (c_next_arr c) (c_seq c) (Some s) frame false
        (c_next c) (c_dirty c) (c_fresh c) (c_trace c ++ EvFirstRender s :: destroyed).

(** Resumption after the first render: adopt the frame, then lines 185-189.
    The chained [setFrame(frame)] is not awaited: it runs up to its own first
    [await] and is returned as a new process, while this call resolves. *)
Definition resume_render (c : ctl) (frame : Z) (s : nat) : ctl * proc * option proc :=
  let c1 := adopt_frame c frame s in
  if c_next c1 =? -1 then (c1, PDone, None)
  else
    let '(c2, p) := setFrame_entry (set_next c1 (-1)) (c_next c1) in
    (c2, PDone, Some p).

(** The environment: new calls, resumption of suspended calls (by position),
    the user editing the scene, and re-registration of the frame list. *)
Inductive action :=
  | ACall (frame : Z)
  | APopup (i : nat) (yes : bool)
  | AImport (i : nat) (o : import_outcome)
  | ARender (i : nat)
  | ADirty (b : bool)
  | ASetFrames (files : list string).

Definition cfg : Type := ctl * list proc.

Definition replace_spawn (ps : list proc) (i : nat) (p : proc) (sp : option proc) : list proc :=
  <[i := p]> ps ++ match sp with Some q => [q] | None => [] end.

(** The caller of [plysequence.setFrames] allocates its array first. *)
Definition alloc_array (c : ctl) (l : list string) : ctl * nat :=
  (mkCtl (<[c_next_arr c := l]> (c_arrays c)) (S (c_next_arr c)) (c_seq c) (c_splat c)
         (c_frame c) (c_loading c) (c_next c) (c_dirty c) (c_fresh c) (c_trace c),
   c_next_arr c).

Definition step (x : cfg) (a : action) : cfg :=
  let '(c, ps) := x in
  match a with
  | ACall f => let '(c', p) := setFrame_entry c f in (c', ps ++ [p])
  | APopup i yes =>
      match ps !! i with
      | Some (PAwaitPopup f) => let '(c', p) := resume_popup c f yes in (c', replace_spawn ps i p None)
      | _ => x
      end
  | AImport i o =>
      match ps !! i with
      | Some (PAwaitImport f) => let '(c', p) := resume_import c f o in (c', replace_spawn ps i p None)
      | _ => x
      end
  | ARender i =>
      match ps !! i with
      | Some (PAwaitRender f s) => let '(c', p, sp) := resume_render c f s in (c', replace_spawn ps i p sp)
      | _ => x
      end
  | ADirty b => (set_dirty c b, ps)
  | ASetFrames l => let '(c1, src) := alloc_array c l in (setFrames c1 src, ps)
  end.

Definition run (x : cfg) (acts : list action) : cfg := fold_left step acts x.

(** ** Selector Resolver and Mask Propagator *)

(** World-space numbers of the helper shapes.  They are only passed on to the
    intersection oracle and never steer this module's control flow. *)
Record vec3 := { vx : Z; vy : Z; vz : Z }.

Inductive element :=
  | BoxShape (pos : vec3) (lenX lenY lenZ : Z)
  | SphereShape (pos : vec3) (radius : Z)
  | OtherDebug.

Inductive SelectorDescriptor :=
  | SelBox (center size : vec3)
  | SelSphere (center : vec3) (radius : Z).

Definition find_box (l : list element) : option SelectorDescriptor :=
  head (omap (fun e => match e with
                       | BoxShape p x y z => Some (SelBox p {| vx := x; vy := y; vz := z |})
                       | _ => None end) l).
Definition find_sphere (l : list element) : option SelectorDescriptor :=
  head (omap (fun e => match e with
                       | SphereShape p r => Some (SelSphere p r)
                       | _ => None end) l).

(** [getActiveSelector(scene)]; a scene is given by its debug elements. *)
Definition getActiveSelector (scene : option (list element)) : option SelectorDescriptor :=
  match scene with
  | None => None
  | Some debugElements =>
      match find_box debugElements with
      | Some b => Some b
      | None => find_sphere debugElements
      end
  end.

Section Mask.

(** [State.deleted] of splat-state.ts; every statement below holds for any
    value of it. *)
Variable deleted : Z.

(** One iteration of the loop of [applySelectorMask]; the store into a
    [Uint8Array] keeps the value modulo 256. *)
Definition mask_byte (st m : Z) : Z :=
  if negb (m =? 255) then Z.lor st deleted mod 256
  else Z.land st (Z.lnot deleted) mod 256.

(** [for (let idx = 0; idx < limit; idx++)]: [fuel] iterations from [idx]. *)
Fixpoint mask_loop (idx fuel : nat) (mask state : list Z) : list Z :=
  match fuel with
  | O => state
  | S fuel' =>
      mask_loop (S idx) fuel' mask
        (<[idx := mask_byte (state !!! idx) (mask !!! idx)]> state)
  end.

(** [applySelectorMask] once [intersect] returned [mask]: the guard on an
    empty state, then the loop up to [Math.min(state.length, mask.length)]. *)
Definition applySelectorMask (state mask : list Z) : list Z :=
  if (length state =? 0)%nat then state
  else mask_loop 0 (Nat.min (length state) (length mask)) mask state.

End Mask.

(** ** Export Pipeline *)

Inductive result (A : Type) := Ok (a : A) | Err (e : string).
Arguments Ok {A} a.
Arguments Err {A} e.

(** What the collaborators do for one frame of the export. *)
Record frame_env := {
  fe_load : result (list Z);        (* assetLoader.load: the state array of the loaded splat *)
  fe_intersect : result (list Z);   (* scene.dataProcessor.intersect *)
  fe_handle : result unit;          (* dirHandle.getFileHandle *)
  fe_writable : result unit;        (* fileHandle.createWritable *)
  fe_serialize : result unit;       (* serializePly *)
  fe_close : result unit }.         (* writer.close *)

(** Heap of [Uint8Array] state arrays, and the trace. *)
Record xst := mkX { x_heap : gmap nat (list Z); x_next : nat; x_trace : list event }.

(** State and exception monad for the async handler: an [await] that rejects
    is a thrown exception. *)
Definition X (A : Type) : Type := xst -> result A * xst.

#[global] Instance X_ret : MRet X := fun A a s => (Ok a, s).
#[global] Instance X_bind : MBind X := fun A B k m s =>
  match m s with
  | (Ok a, s1) => k a s1
  | (Err e, s1) => (Err e, s1)
  end.

Definition lift {A} (r : result A) : X A := fun s => (r, s).
Definition emit (ev : event) : X unit :=
  fun s => (Ok tt, mkX (x_heap s) (x_next s) (x_trace s ++ [ev])).
Definition alloc (v : list Z) : X nat :=
  fun s => (Ok (x_next s), mkX (<[x_next s := v]> (x_heap s)) (S (x_next s)) (x_trace s)).
Definition read (l : nat) : X (list Z) := fun s => (Ok (default [] (x_heap s !! l)), s).
Definition write (l : nat) (v : list Z) : X unit :=
  fun s => (Ok tt, mkX (<[l := v]> (x_heap s)) (x_next s) (x_trace s)).

(** [try { m } finally { fin }]: an exception of [fin] replaces the outcome
    of [m]. *)
Definition try_finally {A} (m : X A) (fin : X unit) : X A := fun s =>
  let '(r, s1) := m s in
  match fin s1 with
  | (Ok _, s2) => (r, s2)
  | (Err e, s2) => (Err e, s2)
  end.

(** [try { m } catch (error) { h }]. *)
Definition try_catch {A} (m : X A) (h : string -> X A) : X A := fun s =>
  match m s with
  | (Ok a, s1) => (Ok a, s1)
  | (Err e, s1) => h e s1
  end.

Section ExportHandler.

Variable deleted : Z.

(** Lines 263-268: [applySelectorMask(scene, splat, newState, activeSelector)]
    or [newState.set(oldState)].  [old] is the array of the live splat
    ([oldState], absent = None) and [l] the array of the transient one. *)
Definition apply_state (sel : option SelectorDescriptor) (old : option nat) (l : nat)
    (fe : frame_env) : X unit :=
  match sel with
  | Some _ =>
      newState ← read l;
      if (length newState =? 0)%nat then mret tt
      else mask ← lift (fe_intersect fe);
           write l (applySelectorMask deleted newState mask)
  | None =>
      match old with
      | Some ol =>
          oldState ← read ol;
          newState ← read l;
          if (length oldState =? length newState)%nat then write l oldState else mret tt
      | None => mret tt
      end
  end.

(** One iteration of the export loop, lines 233-284. *)
Definition export_frame (sel : option SelectorDescriptor) (old : option nat)
    (i : nat) (fe : frame_env) : X unit :=
  st ← lift (fe_load fe);
  l ← alloc st;
  emit (EvLoad i l);;
  emit (EvAttach l);;
  apply_state sel old l fe;;
  lift (fe_handle fe);;
  lift (fe_writable fe);;
  emit (EvOpen i);;
  try_finally (lift (fe_serialize fe);; emit (EvSerialized i))
              (emit (EvProgress (Z.of_nat i));;
               emit (EvCloseCall i);;
               lift (fe_close fe);;
               emit (EvClosed i)).

Fixpoint export_loop (sel : option SelectorDescriptor) (old : option nat)
    (envs : nat -> frame_env) (i : nat) (files : list string) : X unit :=
  match files with
  | [] => mret tt
  | _ :: files' => export_frame sel old i (envs i);; export_loop sel old envs (S i) files'
  end.

(** The live splat [sequenceSplat]: its state array and its scene. *)
Record live_splat := { ls_state : option nat; ls_scene : option (list element) }.

(** The [plysequence.export] handler.  [envs i] is what the collaborators do
    for frame [i]. *)
Definition plysequence_export (files : list string) (live : option live_splat)
    (envs : nat -> frame_env) : X unit :=
  match live with
  | None => emit EvWarn
  | Some ls =>
      if (length files =? 0)%nat then emit EvWarn else
      match ls_scene ls with
      | None => emit EvWarn
      | Some scene =>
          let activeSelector := getActiveSelector (Some scene) in
          emit EvProgressStart;;
          try_finally
            (try_catch
               (emit (EvProgress (-1));;
                export_loop activeSelector (ls_state ls) envs 0 files;;
                emit EvPopupSuccess)
               (fun e => emit (EvPopupError ("'" ++ e ++ "'"))))
            (emit EvProgressEnd)
      end
  end.

End ExportHandler.

(** Which error, if any, frame [fe] throws out of the loop body, in the order
    the body meets the collaborators; [writer.close()] in the [finally]
    replaces an error of [serializePly]. *)
Definition mask_error (sel : option SelectorDescriptor) (st : list Z) (fe : frame_env)
    : option string :=
  match sel with
  | Some _ =>
      if (length st =? 0)%nat then None
      else match fe_intersect fe with Ok _ => None | Err e => Some e end
  | None => None
  end.

Definition frame_error (sel : option SelectorDescriptor) (fe : frame_env) : option string :=
  match fe_load fe with
  | Err e => Some e
  | Ok st =>
      match mask_error sel st fe with
      | Some e => Some e
      | None =>
          match fe_handle fe, fe_writable fe with
          | Err e, _ => Some e
          | Ok _, Err e => Some e
          | Ok _, Ok _ =>
              match fe_close fe, fe_serialize fe with
              | Err e, _ => Some e
              | Ok _, Err e => Some e
              | Ok _, Ok _ => None
              end
          end
      end
  end.

(** The frame a load or an output-file event is about. *)
Definition event_frame (ev : event) : option nat :=
  match ev with
  | EvLoad i _ | EvOpen i | EvSerialized i | EvCloseCall i | EvClosed i => Some i
  | _ => None
  end.

(** Events of the loop body for frame [i]. *)
Definition loop_event (i : nat) (ev : event) : Prop :=
  match ev with
  | EvLoad j _ | EvOpen j | EvSerialized j | EvCloseCall j | EvClosed j => j = i
  | EvAttach _ | EvProgress _ => True
  | _ => False
  end.

Definition is_popup_error (ev : event) : bool :=
  match ev with EvPopupError _ => true | _ => false end.
Definition is_progress_end (ev : event) : bool :=
  match ev with EvProgressEnd => true | _ => false end.

(** The frames whose import was started, in order. *)
Definition imports (tr : list event) : list Z :=
  omap (fun ev => match ev with EvImport f _ => Some f | _ => None end) tr.

(** Splats that reported their first render, and splats destroyed, in order. *)
Definition rendered (tr : list event) : list nat :=
  omap (fun ev => match ev with EvFirstRender s => Some s | _ => None end) tr.
Definition destroyed (tr : list event) : list nat :=
  omap (fun ev => match ev with EvDestroy s => Some s | _ => None end) tr.

(** Splats imported by suspended calls, not yet rendered. *)
Definition psplats (ps : list proc) : list nat :=
  omap (fun p => match p with PAwaitRender _ s => Some s | _ => None end) ps.

(** [keeps ol m]: running [m] from a state in which the array [ol] is already
    allocated leaves that array as it was and only ever allocates fresh ones. *)
Definition keeps (ol : nat) {A} (m : X A) : Prop :=
  forall s r s', (ol < x_next s)%nat -> m s = (r, s') ->
    x_heap s' !! ol = x_heap s !! ol /\ (x_next s <= x_next s')%nat.

(** [emits P m]: [m] only appends events satisfying [P] to the trace. *)
Definition emits (P : event -> Prop) {A} (m : X A) : Prop :=
  forall s r s', m s = (r, s') -> exists evs, x_trace s' = x_trace s ++ evs /\ Forall P evs.

(** Nothing the export does destroys a splat. *)
Definition not_destroy (ev : event) : Prop := forall p, ev <> EvDestroy p.

(** Events that neither render nor destroy a splat. *)
Definition quiet (ev : event) : Prop :=
  match ev with EvFirstRender _ | EvDestroy _ => False | _ => True end.

(** The invariant of the frame controller over the suspended calls [ps]. *)
Record inv (c : ctl) (ps : list proc) : Prop := {
  inv_fresh : Forall (fun s => (s < c_fresh c)%nat) (rendered (c_trace c) ++ psplats ps);
  inv_nodup : NoDup (rendered (c_trace c) ++ psplats ps);
  inv_cur_rendered : forall p, c_splat c = Some p -> p ∈ rendered (c_trace c);
  inv_cur_live : forall p, c_splat c = Some p -> p ∉ destroyed (c_trace c);
  inv_destroyed_rendered : forall p, p ∈ destroyed (c_trace c) -> p ∈ rendered (c_trace c);
  inv_destroyed_nodup : NoDup (destroyed (c_trace c));
  inv_shape : forall k p, c_trace c !! k = Some (EvDestroy p) ->
    exists s, (0 < k)%nat /\ c_trace c !! pred k = Some (EvFirstRender s) /\ s <> p;
  inv_complete : EvSceneClear ∉ c_trace c -> forall s, s ∈ rendered (c_trace c) ->
    c_splat c = Some s \/ s ∈ destroyed (c_trace c) }.

(** [element instanceof BoxShape] and [element instanceof SphereShape]. *)
Definition is_box (e : element) : bool := match e with BoxShape _ _ _ _ => true | _ => false end.
Definition is_sphere (e : element) : bool := match e with SphereShape _ _ => true | _ => false end.

(** Calls of [setFrame] holding a load: suspended at the import or at the
    first render of the imported splat. *)
Definition loading_proc (p : proc) : bool :=
  match p with PAwaitImport _ | PAwaitRender _ _ => true | _ => false end.
Definition inflight (ps : list proc) : nat := length (List.filter loading_proc ps).
Definition popup_proc (p : proc) : bool :=
  match p with PAwaitPopup _ => true | _ => false end.

(** The state kept while the scene has no unsaved changes: no call waits at
    the reset prompt, at most one call holds a load, and a call holding a
    load implies [sequenceLoading]. *)
Definition single_load (x : cfg) : Prop :=
  c_dirty x.1 = false /\ Forall (fun p => popup_proc p = false) x.2 /\
  (inflight x.2 <= 1)%nat /\ (inflight x.2 = 1%nat -> c_loading x.1 = true).

(** The events of one frame of the export when every collaborator succeeds:
    frame [i] loaded into the fresh array [l]. *)
Definition frame_events (i l : nat) : list event :=
  [EvLoad i l; EvAttach l; EvOpen i; EvSerialized i; EvProgress (Z.of_nat i); EvCloseCall i; EvClosed i].

(** A splat [p] the controller no longer holds: it was created, it has not
    been destroyed, it is not the current splat and no suspended call holds
    it.  Nothing the controller does can destroy such a splat. *)
Definition gone (p : nat) (c : ctl) (ps : list proc) : Prop :=
  (p < c_fresh c)%nat /\ (p ∉ destroyed (c_trace c)) /\ c_splat c <> Some p /\ (p ∉ psplats ps).

(** The frames requested by the calls of [setFrame] in a list of actions. *)
Definition calls (acts : list action) : list Z :=
  omap (fun a => match a with ACall x => Some x | _ => None end) acts.

(** ** Properties *)

Example frame_number_ex1 : frame_number "Frame_012.PLY" = Some (JFin 12).
Proof. reflexivity. Qed.
Example frame_number_ex2 : frame_number "a7b23.compressed.ply" = Some (JFin 23).
Proof. reflexivity. Qed.
Example frame_number_ex3 : frame_number "x.compressed.ply" = None.
Proof. reflexivity. Qed.
Example js_sort_ex : js_sort sorter ["f10.ply"; "f2.ply"; "f1.ply"]%string = ["f1.ply"; "f2.ply"; "f10.ply"]%string.
Proof. reflexivity. Qed.
Example run_ex :
  let '(c, ps) := run (ctl_init, []) [ASetFrames ["f1.ply"; "f0.ply"]; ACall 0; ACall 1; AImport 0 IOk; ARender 0] in
  c_frame c = 0 /\ c_loading c = true /\ ps = [PDone; PDone; PAwaitImport 1].
Proof. vm_compute. repeat split. Qed.
Example mask_ex : applySelectorMask 1 [0;0;3] [255;0;255] = [0;1;2].
Proof. reflexivity. Qed.

(** *** Mask Propagator *)

Lemma mask_loop_length (d : Z) fuel idx mask (st : list Z) :
  length (mask_loop d idx fuel mask st) = length st.
Proof.
  induction fuel as [|fuel IH] in idx, st |- *; simpl; [done|].
  by rewrite IH, length_insert.
Qed.

Lemma mask_loop_lookup (d : Z) fuel idx (mask st : list Z) (j : nat) :
  mask_loop d idx fuel mask st !! j =
  if decide (idx <= j < idx + fuel)%nat
  then (fun x => mask_byte d x (mask !!! j)) <$> st !! j
  else st !! j.
Proof.
  induction fuel as [|fuel IH] in idx, st |- *; simpl.
  - case_decide; [lia|done].
  - rewrite IH. destruct (decide (j = idx)) as [->|Hne].
    + destruct (decide (S idx <= idx < S idx + fuel)%nat); [lia|].
      destruct (decide (idx <= idx < idx + S fuel)%nat); [|lia].
      rewrite list_lookup_insert.
      destruct (decide (idx = idx /\ idx < length st)%nat) as [Hin|Hin].
      * destruct (st !! idx) eqn:E.
        -- simpl. by rewrite (list_lookup_total_correct _ _ _ E).
        -- apply lookup_ge_None in E. lia.
      * destruct (st !! idx) eqn:E; [|done].
        apply lookup_lt_Some in E. exfalso. apply Hin. lia.
    + rewrite list_lookup_insert_ne by congruence.
      case_decide; case_decide; try lia; done.
Qed.

Lemma mask_byte_testbit (d x m : Z) (b : nat) :
  (b < 8)%nat ->
  Z.testbit (mask_byte d x m) (Z.of_nat b) =
  if Z.testbit d (Z.of_nat b) then negb (m =? 255) else Z.testbit x (Z.of_nat b).
Proof.
  intros Hb. unfold mask_byte.
  change 256 with (2 ^ 8).
  destruct (m =? 255); simpl;
    rewrite Z.mod_pow2_bits_low by lia;
    [rewrite Z.land_spec, Z.lnot_spec by lia | rewrite Z.lor_spec];
    destruct (Z.testbit d _), (Z.testbit x _); reflexivity.
Qed.

(** C6. In selector mode, for every index below the minimum of the state
    length and the oracle result length, [applySelectorMask] sets the bits of
    [State.deleted] in the status byte when the oracle byte is not 255 and
    clears them when it is 255, keeps every other bit of the byte, and leaves
    every status byte at an index at or beyond the oracle result length
    unchanged; the array keeps its length. *)
Theorem applySelectorMask_spec (deleted : Z) (state mask : list Z) (i b : nat)
    (Hb : (b < 8)%nat) :
  length (applySelectorMask deleted state mask) = length state /\
  ((i < Nat.min (length state) (length mask))%nat ->
     Z.testbit (applySelectorMask deleted state mask !!! i) (Z.of_nat b) =
       if Z.testbit deleted (Z.of_nat b) then negb (mask !!! i =? 255)
       else Z.testbit (state !!! i) (Z.of_nat b)) /\
  ((length mask <= i)%nat -> applySelectorMask deleted state mask !! i = state !! i).
Proof.
  unfold applySelectorMask.
  destruct (length state =? 0)%nat eqn:E.
  - apply Nat.eqb_eq in E. split; [done|]. split; [lia|done].
  - split; [apply mask_loop_length|]. split.
    + intros Hi.
      assert (Hlk : mask_loop deleted 0 (Nat.min (length state) (length mask)) mask state !! i
                    = Some (mask_byte deleted (state !!! i) (mask !!! i))).
      { rewrite mask_loop_lookup, decide_True by lia.
        destruct (state !! i) eqn:Es.
        - simpl. by rewrite (list_lookup_total_correct _ _ _ Es).
        - apply lookup_ge_None in Es. lia. }
      rewrite (list_lookup_total_correct _ _ _ Hlk).
      by apply mask_byte_testbit.
    + intros Hi. rewrite mask_loop_lookup, decide_False by lia. done.
Qed.

Lemma applySelectorMask_spec_witness :
  Z.testbit (applySelectorMask 1 [0; 0; 3] [255; 0; 255] !!! 1%nat) (Z.of_nat 0) = true.
Proof.
  destruct (applySelectorMask_spec 1 [0; 0; 3] [255; 0; 255] 1 0 ltac:(lia)) as [_ [H _]].
  rewrite H by (simpl; lia). reflexivity.
Defined.

Ltac xunfold :=
  unfold mbind, X_bind, mret, X_ret, lift, emit, alloc, read, write,
    try_finally, try_catch in *; simpl in *.

(** C7. With no active selector, the mask step of the export copies the live
    state array ([oldState]) verbatim onto the transient one when both have
    the same length; when the reference is absent or the lengths differ it
    does not touch the heap at all.  It never fails and emits nothing. *)
Theorem apply_state_copy_mode (deleted : Z) (old : option nat) (l : nat) (fe : frame_env)
    (s : xst) (ns : list Z) (Hl : x_heap s !! l = Some ns) :
  let '(r, s') := apply_state deleted None old l fe s in
  r = Ok tt /\ x_next s' = x_next s /\ x_trace s' = x_trace s /\
  (forall ol os, old = Some ol -> x_heap s !! ol = Some os -> length os = length ns ->
     x_heap s' = <[l := os]> (x_heap s) /\ x_heap s' !! l = Some os) /\
  ((forall ol os, old = Some ol -> x_heap s !! ol = Some os -> length os <> length ns) ->
     x_heap s' = x_heap s).
Proof.
  destruct old as [ol|]; unfold apply_state; xunfold.
  - rewrite Hl; simpl.
    destruct (x_heap s !! ol) as [os|] eqn:Eo; simpl.
    + destruct (length os =? length ns)%nat eqn:El; simpl.
      * apply Nat.eqb_eq in El.
        split; [done|]. split; [done|]. split; [done|]. split.
        -- intros ol' os' [= <-] Eo' _. rewrite Eo in Eo'. injection Eo' as <-.
           split; [done|]. apply lookup_insert_eq.
        -- intros H. exfalso. by eapply (H ol os).
      * apply Nat.eqb_neq in El.
        split; [done|]. split; [done|]. split; [done|]. split; [|done].
        intros ol' os' [= <-] Eo' Hlen. rewrite Eo in Eo'. injection Eo' as <-. done.
    + destruct ns as [|n ns']; simpl.
      * split; [done|]. split; [done|]. split; [done|]. split.
        -- intros ol' os' [= <-] Eo'. congruence.
        -- intros _. by apply insert_id.
      * split; [done|]. split; [done|]. split; [done|]. split; [|done].
        intros ol' os' [= <-] Eo'. congruence.
  - split; [done|]. split; [done|]. split; [done|]. split; [|done].
    intros ? ? [=].
Qed.

Lemma apply_state_copy_mode_witness :
  let '(r, s') := apply_state 4 None (Some 0%nat) 1 (Build_frame_env (Ok []) (Ok []) (Ok tt) (Ok tt) (Ok tt) (Ok tt))
                    (mkX {[0%nat := [0; 1; 0; 2]; 1%nat := [9; 9; 9; 9]]} 2 []) in
  x_heap s' !! 1%nat = Some [0; 1; 0; 2].
Proof.
  pose proof (apply_state_copy_mode 4 (Some 0%nat) 1
    (Build_frame_env (Ok []) (Ok []) (Ok tt) (Ok tt) (Ok tt) (Ok tt))
    (mkX ({[0%nat := [0; 1; 0; 2]; 1%nat := [9; 9; 9; 9]]} : gmap nat (list Z)) 2 [])
    [9; 9; 9; 9]) as H.
  specialize (H ltac:(vm_compute; reflexivity)).
  destruct (apply_state _ _ _ _ _ _) as [r s'].
  destruct H as (_ & _ & _ & H & _).
  apply (H 0%nat [0; 1; 0; 2]); vm_compute; reflexivity.
Defined.

(** *** Export Pipeline: what a run may write *)

Lemma keeps_ret ol {A} (a : A) : keeps ol (mret a).
Proof. intros s r s' _ [= <- <-]. done. Qed.
Lemma keeps_lift ol {A} (r0 : result A) : keeps ol (lift r0).
Proof. intros s r s' _ [= <- <-]. done. Qed.
Lemma keeps_read ol l : keeps ol (read l).
Proof. intros s r s' _ [= <- <-]. done. Qed.
Lemma keeps_emit ol ev : keeps ol (emit ev).
Proof. intros s r s' _ [= <- <-]. done. Qed.
Lemma keeps_write ol l v : l <> ol -> keeps ol (write l v).
Proof. intros Hne s r s' _ [= <- <-]. simpl. by rewrite lookup_insert_ne. Qed.

Lemma keeps_bind ol {A B} (m : X A) (k : A -> X B) :
  keeps ol m -> (forall a, keeps ol (k a)) -> keeps ol (m ≫= k).
Proof.
  intros Hm Hk s r s' Hlt. unfold mbind, X_bind.
  destruct (m s) as [[a|e] s1] eqn:E; intros H.
  - destruct (Hm _ _ _ Hlt E) as [H1 H2].
    destruct (Hk a s1 r s' ltac:(lia) H) as [H3 H4]. split; [congruence|lia].
  - injection H as <- <-. eauto.
Qed.

Lemma keeps_alloc_bind ol {A} v (k : nat -> X A) :
  (forall l, l <> ol -> keeps ol (k l)) -> keeps ol (alloc v ≫= k).
Proof.
  intros Hk s r s' Hlt. unfold mbind, X_bind, alloc. intros H.
  assert (Hne : x_next s <> ol) by lia.
  eapply (Hk (x_next s) Hne) in H as [H1 H2]; [|simpl; lia].
  simpl in *. rewrite H1, lookup_insert_ne by lia. split; [done|lia].
Qed.

Lemma keeps_try_finally ol {A} (m : X A) fin :
  keeps ol m -> keeps ol fin -> keeps ol (try_finally m fin).
Proof.
  intros Hm Hf s r s' Hlt. unfold try_finally.
  destruct (m s) as [r1 s1] eqn:E.
  destruct (Hm _ _ _ Hlt E) as [H1 H2].
  destruct (fin s1) as [[]  s2] eqn:F; intros [= <- <-];
    (eapply Hf in F as [? ?]; [|lia]); split; try congruence; lia.
Qed.

Lemma keeps_try_catch ol {A} (m : X A) h :
  keeps ol m -> (forall e, keeps ol (h e)) -> keeps ol (try_catch m h).
Proof.
  intros Hm Hh s r s' Hlt. unfold try_catch.
  destruct (m s) as [[a|e] s1] eqn:E; intros H;
    destruct (Hm _ _ _ Hlt E) as [H1 H2].
  - injection H as <- <-. done.
  - eapply Hh in H as [? ?]; [|lia]. split; [congruence|lia].
Qed.

Ltac keeps_tac :=
  repeat match goal with
  | |- keeps _ (alloc _ ≫= _) => apply keeps_alloc_bind; intros ? ?
  | |- keeps _ (_ ≫= _) => apply keeps_bind; [|intros ?]
  | |- keeps _ (try_finally _ _) => apply keeps_try_finally
  | |- keeps _ (try_catch _ _) => apply keeps_try_catch; [|intros ?]
  | |- keeps _ (if ?b then _ else _) => destruct b
  | |- keeps _ (match ?x with _ => _ end) => destruct x
  | |- keeps _ (mret _) => apply keeps_ret
  | |- keeps _ (lift _) => apply keeps_lift
  | |- keeps _ (read _) => apply keeps_read
  | |- keeps _ (emit _) => apply keeps_emit
  | |- keeps _ (write _ _) => apply keeps_write; assumption
  end.

Lemma keeps_apply_state ol d sel old l fe : l <> ol -> keeps ol (apply_state d sel old l fe).
Proof. intros Hne. unfold apply_state. keeps_tac. Qed.

Lemma keeps_export_frame ol d sel old i fe : keeps ol (export_frame d sel old i fe).
Proof.
  unfold export_frame. keeps_tac.
  all: try (apply keeps_apply_state; assumption).
Qed.

Lemma keeps_export_loop ol d sel old envs i files : keeps ol (export_loop d sel old envs i files).
Proof.
  induction files as [|f files IH] in i |- *; simpl; keeps_tac.
  - apply keeps_export_frame.
  - apply IH.
Qed.

Lemma keeps_export ol d files live envs : keeps ol (plysequence_export d files live envs).
Proof.
  unfold plysequence_export. keeps_tac; apply keeps_export_loop.
Qed.

(** C9. Whether the export succeeds or fails, the live splat's state array
    ([oldState]) is bytewise the same at the end of the run: every mask
    mutation lands on the freshly allocated array of a transient splat. *)
Theorem export_keeps_live_state (deleted : Z) (files : list string) (ls : live_splat)
    (envs : nat -> frame_env) (s : xst) (ol : nat)
    (Hol : ls_state ls = Some ol) (Hlt : (ol < x_next s)%nat) :
  x_heap (snd (plysequence_export deleted files (Some ls) envs s)) !! ol = x_heap s !! ol.
Proof.
  destruct (plysequence_export deleted files (Some ls) envs s) as [r s'] eqn:E.
  by destruct (keeps_export ol deleted files (Some ls) envs s r s' Hlt E).
Qed.

Lemma export_keeps_live_state_witness :
  x_heap (snd (plysequence_export 4 ["a0.ply"; "a1.ply"]
                 (Some {| ls_state := Some 0%nat; ls_scene := Some [] |})
                 (fun _ => Build_frame_env (Ok [9; 9; 9; 9]) (Ok []) (Ok tt) (Ok tt) (Ok tt) (Ok tt))
                 (mkX {[0%nat := [0; 1; 0; 2]]} 1 []))) !! 0%nat
  = Some [0; 1; 0; 2].
Proof.
  rewrite (export_keeps_live_state 4 ["a0.ply"; "a1.ply"]
             {| ls_state := Some 0%nat; ls_scene := Some [] |}
             (fun _ => Build_frame_env (Ok [9; 9; 9; 9]) (Ok []) (Ok tt) (Ok tt) (Ok tt) (Ok tt))
             (mkX {[0%nat := [0; 1; 0; 2]]} 1 []) 0 eq_refl ltac:(simpl; lia)).
  vm_compute. reflexivity.
Defined.

Section Emits.
Variable P : event -> Prop.

Lemma emits_nil {A} (m : X A) :
  (forall s r s', m s = (r, s') -> x_trace s' = x_trace s) -> emits P m.
Proof. intros H s r s' E. exists []. rewrite (H _ _ _ E), app_nil_r. done. Qed.

Lemma emits_ret {A} (a : A) : emits P (mret a).
Proof. apply emits_nil. by intros s r s' [= <- <-]. Qed.
Lemma emits_lift {A} (r0 : result A) : emits P (lift r0).
Proof. apply emits_nil. by intros s r s' [= <- <-]. Qed.
Lemma emits_read l : emits P (read l).
Proof. apply emits_nil. by intros s r s' [= <- <-]. Qed.
Lemma emits_write l v : emits P (write l v).
Proof. apply emits_nil. by intros s r s' [= <- <-]. Qed.
Lemma emits_alloc v : emits P (alloc v).
Proof. apply emits_nil. by intros s r s' [= <- <-]. Qed.
Lemma emits_emit ev : P ev -> emits P (emit ev).
Proof. intros Hev s r s' [= <- <-]. exists [ev]. simpl. split; [done|by constructor]. Qed.

Lemma emits_bind {A B} (m : X A) (k : A -> X B) :
  emits P m -> (forall a, emits P (k a)) -> emits P (m ≫= k).
Proof.
  intros Hm Hk s r s'. unfold mbind, X_bind.
  destruct (m s) as [[a|e] s1] eqn:E; intros H;
    destruct (Hm _ _ _ E) as (evs1 & T1 & F1).
  - destruct (Hk a _ _ _ H) as (evs2 & T2 & F2).
    exists (evs1 ++ evs2). rewrite T2, T1, app_assoc. split; [done|by apply Forall_app].
  - injection H as <- <-. eauto.
Qed.

Lemma emits_try_finally {A} (m : X A) fin :
  emits P m -> emits P fin -> emits P (try_finally m fin).
Proof.
  intros Hm Hf s r s'. unfold try_finally.
  destruct (m s) as [r1 s1] eqn:E. destruct (Hm _ _ _ E) as (evs1 & T1 & F1).
  destruct (fin s1) as [[] s2] eqn:F; intros [= <- <-];
    destruct (Hf _ _ _ F) as (evs2 & T2 & F2);
    exists (evs1 ++ evs2); rewrite T2, T1, app_assoc; (split; [done|by apply Forall_app]).
Qed.

Lemma emits_try_catch {A} (m : X A) h :
  emits P m -> (forall e, emits P (h e)) -> emits P (try_catch m h).
Proof.
  intros Hm Hh s r s'. unfold try_catch.
  destruct (m s) as [[a|e] s1] eqn:E; intros H;
    destruct (Hm _ _ _ E) as (evs1 & T1 & F1).
  - injection H as <- <-. eauto.
  - destruct (Hh e _ _ _ H) as (evs2 & T2 & F2).
    exists (evs1 ++ evs2). rewrite T2, T1, app_assoc. split; [done|by apply Forall_app].
Qed.

End Emits.

Ltac emits_tac :=
  repeat match goal with
  | |- emits _ (_ ≫= _) => apply emits_bind; [|intros ?]
  | |- emits _ (try_finally _ _) => apply emits_try_finally
  | |- emits _ (try_catch _ _) => apply emits_try_catch; [|intros ?]
  | |- emits _ (if ?b then _ else _) => destruct b
  | |- emits _ (match ?x with _ => _ end) => destruct x
  | |- emits _ (mret _) => apply emits_ret
  | |- emits _ (lift _) => apply emits_lift
  | |- emits _ (read _) => apply emits_read
  | |- emits _ (write _ _) => apply emits_write
  | |- emits _ (alloc _) => apply emits_alloc
  | |- emits _ (emit _) => apply emits_emit
  end.

Lemma emits_export_not_destroy d files live envs :
  emits not_destroy (plysequence_export d files live envs).
Proof.
  assert (Hloop : forall sel old i, emits not_destroy (export_loop d sel old envs i files)).
  { induction files as [|f fs IH]; intros sel old i; simpl; emits_tac; [|apply IH].
    unfold export_frame, apply_state. emits_tac; intros ? [=]. }
  unfold plysequence_export. emits_tac; try (intros ? [=]). apply Hloop.
Qed.

(** C3 (as the code does it). The export never destroys or detaches the
    transient splats: whether it succeeds or fails, everything it appends to
    the trace is a load, attach, open, write, progress, close, popup or
    warning, and no destroy at all; each transient is dropped, not released,
    when its iteration ends. *)
Theorem export_never_destroys_transients (deleted : Z) (files : list string)
    (live : option live_splat) (envs : nat -> frame_env) (s : xst) :
  exists evs,
    x_trace (snd (plysequence_export deleted files live envs s)) = x_trace s ++ evs /\
    forall p, EvDestroy p ∉ evs.
Proof.
  destruct (plysequence_export deleted files live envs s) as [r s'] eqn:E.
  destruct (emits_export_not_destroy deleted files live envs s r s' E) as (evs & T & F).
  exists evs. split; [done|]. intros p Hin.
  rewrite Forall_forall in F. by apply (F _ Hin p).
Qed.

(** C3 as stated fails: in a two-frame export the transient splat of frame 0
    (array 1) is never destroyed or detached, neither before the transient of
    frame 1 (array 2) is attached nor after the export. *)
Lemma export_transient_not_released :
  let tr := x_trace (snd (plysequence_export 4 ["a0.ply"; "a1.ply"]
                 (Some {| ls_state := Some 0%nat; ls_scene := Some [] |})
                 (fun _ => Build_frame_env (Ok [0; 0]) (Ok []) (Ok tt) (Ok tt) (Ok tt) (Ok tt))
                 (mkX {[0%nat := [0; 0]]} 1 []))) in
  tr = [EvProgressStart; EvProgress (-1);
        EvLoad 0 1; EvAttach 1; EvOpen 0; EvSerialized 0; EvProgress 0; EvCloseCall 0; EvClosed 0;
        EvLoad 1 2; EvAttach 2; EvOpen 1; EvSerialized 1; EvProgress 1; EvCloseCall 1; EvClosed 1;
        EvPopupSuccess; EvProgressEnd] /\
  EvAttach 2 ∈ tr /\ (forall p, EvDestroy p ∉ tr).
Proof.
  intros tr.
  assert (E : tr = [EvProgressStart; EvProgress (-1);
        EvLoad 0 1; EvAttach 1; EvOpen 0; EvSerialized 0; EvProgress 0; EvCloseCall 0; EvClosed 0;
        EvLoad 1 2; EvAttach 2; EvOpen 1; EvSerialized 1; EvProgress 1; EvCloseCall 1; EvClosed 1;
        EvPopupSuccess; EvProgressEnd]) by (vm_compute; reflexivity).
  rewrite E. split; [done|]. split.
  - apply list_elem_of_In. simpl. tauto.
  - intros p Hin. apply list_elem_of_In in Hin. simpl in Hin.
    repeat (destruct Hin as [Hin|Hin]; [discriminate|]). done.
Qed.

(** *** Export Pipeline: abort at the first failing frame *)

Lemma apply_state_outcome d sel old l fe s st :
  x_heap s !! l = Some st ->
  exists s', apply_state d sel old l fe s
             = (match mask_error sel st fe with Some e => Err e | None => Ok tt end, s')
           /\ x_trace s' = x_trace s.
Proof.
  intros Hl. unfold apply_state, mask_error.
  destruct sel as [sel|]; xunfold; rewrite ?Hl; simpl.
  - destruct (length st =? 0)%nat; simpl; [eauto|].
    destruct (fe_intersect fe); simpl; eauto.
  - destruct old as [ol|]; simpl; [|eauto].
    rewrite Hl; simpl.
    destruct (_ =? _)%nat; simpl; eauto.
Qed.

Lemma export_frame_ok d sel old i fe s :
  frame_error sel fe = None ->
  exists l s', export_frame d sel old i fe s = (Ok tt, s') /\
    x_trace s' = x_trace s ++ [EvLoad i l; EvAttach l; EvOpen i; EvSerialized i;
                               EvProgress (Z.of_nat i); EvCloseCall i; EvClosed i].
Proof.
  unfold frame_error. intros H.
  destruct (fe_load fe) as [st|e] eqn:Eload; [|discriminate].
  unfold export_frame. xunfold. rewrite Eload. simpl.
  match goal with
  | |- context [apply_state d sel old ?l fe ?s1] =>
      destruct (apply_state_outcome d sel old l fe s1 st ltac:(simpl; apply lookup_insert_eq))
        as (s2 & E2 & T2); rewrite E2
  end.
  destruct (mask_error sel st fe); [discriminate|].
  destruct (fe_handle fe), (fe_writable fe), (fe_close fe), (fe_serialize fe); try discriminate.
  simpl. eexists _, _. split; [reflexivity|]. simpl. rewrite T2. simpl.
  rewrite <- !app_assoc. reflexivity.
Qed.

Lemma export_frame_err d sel old i fe s e :
  frame_error sel fe = Some e ->
  exists evs s', export_frame d sel old i fe s = (Err e, s') /\
    x_trace s' = x_trace s ++ evs /\ Forall (loop_event i) evs /\
    (EvOpen i ∈ evs -> EvCloseCall i ∈ evs).
Proof.
  unfold frame_error. intros H.
  unfold export_frame. xunfold.
  destruct (fe_load fe) as [st|e0] eqn:Eload; simpl.
  2:{ injection H as <-. exists [], s. split; [done|]. rewrite app_nil_r.
      split; [done|]. split; [constructor|]. intros Hin. by apply elem_of_nil in Hin. }
  match goal with
  | |- context [apply_state d sel old ?l fe ?s1] =>
      destruct (apply_state_outcome d sel old l fe s1 st ltac:(simpl; apply lookup_insert_eq))
        as (s2 & E2 & T2); rewrite E2
  end.
  destruct (mask_error sel st fe) as [e0|];
  [|destruct (fe_handle fe), (fe_writable fe), (fe_close fe), (fe_serialize fe)];
  simpl in H |- *; (discriminate H || injection H as <-);
  (eexists _, _; split; [reflexivity|]; simpl; rewrite ?T2; simpl;
   split; [rewrite <- ?app_assoc; reflexivity|];
   split; [repeat constructor|];
   intros Hin; apply list_elem_of_In in Hin; apply list_elem_of_In; simpl in *;
   repeat (destruct Hin as [Hin|Hin]; [try discriminate|]); try tauto).
Qed.

Lemma export_loop_abort d sel old envs files : forall i0 k e s,
  (i0 <= k < i0 + length files)%nat ->
  (forall j, (i0 <= j < k)%nat -> frame_error sel (envs j) = None) ->
  frame_error sel (envs k) = Some e ->
  exists evs s', export_loop d sel old envs i0 files s = (Err e, s') /\
    x_trace s' = x_trace s ++ evs /\
    (forall j, (i0 <= j < k)%nat -> EvSerialized j ∈ evs /\ EvClosed j ∈ evs) /\
    (EvOpen k ∈ evs -> EvCloseCall k ∈ evs) /\
    Forall (fun ev => exists j, (i0 <= j <= k)%nat /\ loop_event j ev) evs.
Proof.
  induction files as [|f files IH]; intros i0 k e s Hk Hok Herr; simpl in Hk; [lia|].
  simpl. unfold mbind at 1, X_bind at 1.
  destruct (decide (k = i0)) as [->|Hne].
  - destruct (export_frame_err d sel old i0 (envs i0) s e Herr)
      as (evs & s' & E & T & F & O).
    rewrite E. exists evs, s'. split; [done|]. split; [done|].
    split; [intros; lia|]. split; [done|].
    eapply Forall_impl; [exact F|]. intros ev Hev. exists i0. split; [lia|done].
  - destruct (export_frame_ok d sel old i0 (envs i0) s ltac:(apply Hok; lia))
      as (l & s1 & E & T).
    rewrite E.
    destruct (IH (S i0) k e s1 ltac:(lia) ltac:(intros; apply Hok; lia) Herr)
      as (evs & s' & E' & T' & S' & O' & F').
    rewrite E'. eexists _, s'. split; [done|].
    split; [rewrite T', T, <- app_assoc; reflexivity|].
    split; [|split; [|]].
    + intros j Hj. destruct (decide (j = i0)) as [->|Hj'].
      * split; apply elem_of_app; left; apply list_elem_of_In; simpl; tauto.
      * destruct (S' j ltac:(lia)). split; apply elem_of_app; right; done.
    + intros Hin. apply elem_of_app in Hin as [Hin|Hin].
      * apply list_elem_of_In in Hin. simpl in Hin.
        repeat (destruct Hin as [Hin|Hin]; [try (injection Hin; lia); try discriminate|]); done.
      * apply elem_of_app. right. auto.
    + apply Forall_app. split.
      * repeat constructor; exists i0; simpl; split; auto; lia.
      * eapply Forall_impl; [exact F'|]. intros ev (j & Hj & Hev). exists j. split; [lia|done].
Qed.

Lemma loop_events_filter (P : nat -> Prop) (f : event -> bool)
    (Hf : forall ev j, loop_event j ev -> f ev = false) l :
  Forall (fun ev => exists j, P j /\ loop_event j ev) l -> List.filter f l = [].
Proof.
  induction 1 as [|ev l (j & _ & Hev) _ IH]; [done|].
  simpl. rewrite (Hf ev j Hev). exact IH.
Qed.

(** C2. If the export of a sequence fails at frame [k], the failure is reported
    once and the progress end fires once: every frame before [k] has been
    serialized and its writer closed; if the writer of frame [k] was opened,
    its [close] was called; no event concerns a frame after [k]; exactly one
    failure popup, carrying the error message, and no success popup. *)
Theorem export_abort_at_first_failure d files ls scene envs k e s :
  ls_scene ls = Some scene ->
  (k < length files)%nat ->
  (forall j, (j < k)%nat -> frame_error (getActiveSelector (Some scene)) (envs j) = None) ->
  frame_error (getActiveSelector (Some scene)) (envs k) = Some e ->
  exists evs, x_trace (snd (plysequence_export d files (Some ls) envs s)) = x_trace s ++ evs /\
    (forall j, (j < k)%nat -> EvSerialized j ∈ evs /\ EvClosed j ∈ evs) /\
    (EvOpen k ∈ evs -> EvCloseCall k ∈ evs) /\
    (forall ev j, ev ∈ evs -> event_frame ev = Some j -> (j <= k)%nat) /\
    length (List.filter is_popup_error evs) = 1%nat /\
    EvPopupError ("'" ++ e ++ "'") ∈ evs /\
    (EvPopupSuccess ∉ evs) /\
    length (List.filter is_progress_end evs) = 1%nat.
Proof.
  intros Hscene Hk Hok Herr.
  unfold plysequence_export. rewrite Hscene.
  destruct (length files =? 0)%nat eqn:E0; [apply Nat.eqb_eq in E0; lia|].
  unfold try_finally, try_catch, mbind, X_bind, emit. simpl.
  match goal with
  | |- context [export_loop d ?sel ?old envs 0 files ?s1] =>
      destruct (export_loop_abort d sel old envs files 0 k e s1 ltac:(lia)
                  ltac:(intros; apply Hok; lia) Herr) as (evs & s' & E & T & S & O & F)
  end.
  rewrite E. simpl. rewrite T. simpl.
  exists ([EvProgressStart; EvProgress (-1)] ++ evs ++ [EvPopupError ("'" ++ e ++ "'"); EvProgressEnd]).
  assert (Hpe : List.filter is_popup_error evs = [])
    by (eapply loop_events_filter; [|exact F]; intros [] j; simpl; tauto).
  assert (Hpr : List.filter is_progress_end evs = [])
    by (eapply loop_events_filter; [|exact F]; intros [] j; simpl; tauto).
  split; [rewrite <- !app_assoc; reflexivity|].
  split; [|split; [|split; [|split; [|split; [|split]]]]].
  - intros j Hj. destruct (S j ltac:(lia)).
    split; apply elem_of_app; right; apply elem_of_app; left; done.
  - intros Hin. apply elem_of_app in Hin as [Hin|Hin].
    + apply list_elem_of_In in Hin. simpl in Hin. intuition discriminate.
    + apply elem_of_app in Hin as [Hin|Hin].
      * apply elem_of_app; right; apply elem_of_app; left; auto.
      * apply list_elem_of_In in Hin. simpl in Hin. intuition discriminate.
  - intros ev j Hin Hj. apply elem_of_app in Hin as [Hin|Hin].
    + apply list_elem_of_In in Hin. simpl in Hin.
      destruct Hin as [<-|[<-|[]]]; discriminate.
    + apply elem_of_app in Hin as [Hin|Hin].
      * rewrite Forall_forall in F. destruct (F ev Hin) as (j' & Hj' & Hev).
        destruct ev; simpl in *; try discriminate; injection Hj as <-; lia.
      * apply list_elem_of_In in Hin. simpl in Hin.
        destruct Hin as [<-|[<-|[]]]; discriminate.
  - rewrite !List.filter_app, Hpe. reflexivity.
  - apply elem_of_app; right; apply elem_of_app; right. apply list_elem_of_In. simpl. tauto.
  - intros Hin. apply elem_of_app in Hin as [Hin|Hin].
    + apply list_elem_of_In in Hin. simpl in Hin. intuition discriminate.
    + apply elem_of_app in Hin as [Hin|Hin].
      * rewrite Forall_forall in F. destruct (F _ Hin) as (j' & _ & Hev). exact Hev.
      * apply list_elem_of_In in Hin. simpl in Hin. intuition discriminate.
  - rewrite !List.filter_app, Hpr. reflexivity.
Qed.

Lemma export_abort_at_first_failure_witness :
  exists evs,
    x_trace (snd (plysequence_export 4 ["a0.ply"; "a1.ply"; "a2.ply"]
                    (Some {| ls_state := None; ls_scene := Some [] |})
                    (fun j => Build_frame_env (Ok [1; 2]) (Ok []) (Ok tt) (Ok tt)
                                (if (j =? 1)%nat then Err "disk full" else Ok tt) (Ok tt))
                    (mkX ∅ 0 []))) = [] ++ evs /\
    (forall j, (j < 1)%nat -> EvSerialized j ∈ evs /\ EvClosed j ∈ evs) /\
    (EvOpen 1 ∈ evs -> EvCloseCall 1 ∈ evs) /\
    (forall ev j, ev ∈ evs -> event_frame ev = Some j -> (j <= 1)%nat) /\
    length (List.filter is_popup_error evs) = 1%nat /\
    EvPopupError ("'" ++ "disk full" ++ "'") ∈ evs /\
    (EvPopupSuccess ∉ evs) /\
    length (List.filter is_progress_end evs) = 1%nat.
Proof.
  apply (export_abort_at_first_failure 4 ["a0.ply"; "a1.ply"; "a2.ply"]
           {| ls_state := None; ls_scene := Some [] |} []
           (fun j => Build_frame_env (Ok [1; 2]) (Ok []) (Ok tt) (Ok tt)
                       (if (j =? 1)%nat then Err "disk full" else Ok tt) (Ok tt))
           1 "disk full" (mkX ∅ 0 [])).
  - reflexivity.
  - simpl; lia.
  - intros j Hj. assert (j = 0%nat) as -> by lia. vm_compute. reflexivity.
  - vm_compute. reflexivity.
Defined.

(** *** Sorting of the frame list *)
Section SortProps.
Context {A : Type} (cmp : A -> A -> comparison) (P : A -> Prop).
Hypothesis cmp_opp : forall x y, P x -> P y -> cmp y x = CompOpp (cmp x y).
Hypothesis cmp_trans : forall x y z, P x -> P y -> P z ->
  cmp x y <> Gt -> cmp y z <> Gt -> cmp x z <> Gt.

Let le x y := cmp x y <> Gt.

Lemma sort_insert_perm x l : sort_insert cmp x l ≡ₚ x :: l.
Proof.
  induction l as [|y l IH]; simpl; [done|].
  destruct (cmp x y); [| done |]; rewrite IH; apply perm_swap.
Qed.

Lemma sort_insert_sorted x l :
  P x -> Forall P l -> StronglySorted le l -> StronglySorted le (sort_insert cmp x l).
Proof.
  intros Px. induction l as [|y l IH]; intros FP SS; simpl.
  - repeat constructor.
  - inversion FP as [|? ? Py FP']; subst. inversion SS as [|? ? SS' Fy]; subst.
    destruct (cmp x y) eqn:Exy.
    + constructor; [apply IH; done|].
      apply Forall_forall. intros z Hz.
      rewrite (sort_insert_perm x l) in Hz. apply elem_of_cons in Hz as [->|Hz].
      * unfold le. rewrite (cmp_opp x y Px Py), Exy. done.
      * rewrite Forall_forall in Fy. auto.
    + constructor; [done|]. constructor.
      * unfold le. rewrite Exy. done.
      * apply Forall_forall. intros z Hz.
        rewrite Forall_forall in Fy, FP'.
        apply (cmp_trans x y z Px Py (FP' z Hz)); [rewrite Exy; done | apply Fy; done].
    + constructor; [apply IH; done|].
      apply Forall_forall. intros z Hz.
      rewrite (sort_insert_perm x l) in Hz. apply elem_of_cons in Hz as [->|Hz].
      * unfold le. rewrite (cmp_opp x y Px Py), Exy. done.
      * rewrite Forall_forall in Fy. auto.
Qed.

Lemma js_sort_fold_perm l acc :
  fold_left (fun acc x => sort_insert cmp x acc) l acc ≡ₚ l ++ acc.
Proof.
  revert acc. induction l as [|x l IH]; intros acc; simpl; [done|].
  rewrite IH, sort_insert_perm. symmetry. apply Permutation_middle.
Qed.

Lemma js_sort_fold_sorted l acc :
  Forall P l -> Forall P acc -> StronglySorted le acc ->
  StronglySorted le (fold_left (fun acc x => sort_insert cmp x acc) l acc).
Proof.
  revert acc. induction l as [|x l IH]; intros acc Fl Facc SS; simpl; [done|].
  inversion Fl; subst. apply IH; [done| |by apply sort_insert_sorted].
  apply Forall_forall. intros z Hz.
  rewrite (sort_insert_perm x acc) in Hz. apply elem_of_cons in Hz as [->|Hz]; [done|].
  rewrite Forall_forall in Facc. auto.
Qed.

Lemma js_sort_perm l : js_sort cmp l ≡ₚ l.
Proof. unfold js_sort. rewrite js_sort_fold_perm, app_nil_r. done. Qed.

Lemma js_sort_sorted l : Forall P l -> StronglySorted le (js_sort cmp l).
Proof. intros Fl. apply js_sort_fold_sorted; [done|constructor|constructor]. Qed.

End SortProps.

Lemma StronglySorted_lookup {A} (R : A -> A -> Prop) l i j a b :
  StronglySorted R l -> (i < j)%nat -> l !! i = Some a -> l !! j = Some b -> R a b.
Proof.
  intros SS. revert i j a b. induction SS as [|x l SS IH Fx]; intros i j a b Hij Ha Hb; [done|].
  destruct j as [|j]; [lia|]. destruct i as [|i].
  - injection Ha as <-. simpl in Hb. rewrite Forall_forall in Fx. apply Fx.
    apply list_elem_of_lookup. eauto.
  - simpl in Ha, Hb. apply (IH i j); auto; lia.
Qed.

Lemma sorter_opp a b : is_Some (frame_number a) -> is_Some (frame_number b) ->
  sorter b a = CompOpp (sorter a b).
Proof.
  intros [x Ha] [y Hb]. unfold sorter. rewrite Ha, Hb.
  destruct x, y; simpl; try done. apply Z.compare_antisym.
Qed.

Lemma sorter_trans a b c : is_Some (frame_number a) -> is_Some (frame_number b) ->
  is_Some (frame_number c) -> sorter a b <> Gt -> sorter b c <> Gt -> sorter a c <> Gt.
Proof.
  intros [x Ha] [y Hb] [z Hc]. unfold sorter. rewrite Ha, Hb, Hc.
  destruct x, y, z; simpl; intros H1 H2; try congruence;
    rewrite Z.compare_le_iff in H1, H2 |- *; lia.
Qed.

Lemma sorter_le_jsnum a b x y : frame_number a = Some x -> frame_number b = Some y ->
  sorter a b <> Gt -> jsnum_le x y = true.
Proof.
  intros Ha Hb. unfold sorter. rewrite Ha, Hb.
  destruct x, y; simpl; try done. intros H. apply Z.leb_le. by apply Z.compare_le_iff.
Qed.

Lemma setFrames_seqFiles c src : seqFiles (setFrames c src) = js_sort sorter (default [] (c_arrays c !! src)).
Proof. unfold seqFiles, setFrames. simpl. rewrite !lookup_insert_eq. reflexivity. Qed.

(** C8. When every name of the registered list [l] has a trailing frame number,
    [setFrames] stores a permutation of [l] whose frame numbers are
    non-decreasing, and announces [length l] frames. *)
Theorem setFrames_sorted c src l :
  c_arrays c !! src = Some l ->
  Forall (fun a => is_Some (frame_number a)) l ->
  seqFiles (setFrames c src) ≡ₚ l /\
  (forall i j a b x y, (i < j)%nat ->
     seqFiles (setFrames c src) !! i = Some a -> seqFiles (setFrames c src) !! j = Some b ->
     frame_number a = Some x -> frame_number b = Some y -> jsnum_le x y = true) /\
  c_trace (setFrames c src) = c_trace c ++ [EvFrames (length l)].
Proof.
  intros Hl Hall. rewrite setFrames_seqFiles, Hl. simpl.
  split; [|split].
  - apply js_sort_perm.
  - intros i j a b x y Hij Ha Hb Hx Hy.
    apply (sorter_le_jsnum a b x y Hx Hy).
    apply (StronglySorted_lookup (fun a b => sorter a b <> Gt) (js_sort sorter l) i j a b);
      [|exact Hij|exact Ha|exact Hb].
    apply (js_sort_sorted sorter (fun a => is_Some (frame_number a))); [| |exact Hall].
    + intros; by apply sorter_opp.
    + intros x0 y0 z H0 H1 H2 H3 H4. exact (sorter_trans x0 y0 z H0 H1 H2 H3 H4).
  - unfold setFrames. simpl. rewrite Hl, !lookup_insert_eq. simpl.
    by rewrite (Permutation_length (js_sort_perm sorter l)).
Qed.

Lemma setFrames_sorted_witness :
  seqFiles (setFrames (mkCtl {[0%nat := ["f10.ply"; "f2.ply"; "f7.compressed.ply"]]} 1 0 None (-1) false (-1) false 0 []) 0)
    ≡ₚ ["f10.ply"; "f2.ply"; "f7.compressed.ply"] /\
  (forall i j a b x y, (i < j)%nat ->
     seqFiles (setFrames (mkCtl {[0%nat := ["f10.ply"; "f2.ply"; "f7.compressed.ply"]]} 1 0 None (-1) false (-1) false 0 []) 0) !! i = Some a ->
     seqFiles (setFrames (mkCtl {[0%nat := ["f10.ply"; "f2.ply"; "f7.compressed.ply"]]} 1 0 None (-1) false (-1) false 0 []) 0) !! j = Some b ->
     frame_number a = Some x -> frame_number b = Some y -> jsnum_le x y = true) /\
  c_trace (setFrames (mkCtl {[0%nat := ["f10.ply"; "f2.ply"; "f7.compressed.ply"]]} 1 0 None (-1) false (-1) false 0 []) 0)
    = [] ++ [EvFrames (length ["f10.ply"; "f2.ply"; "f7.compressed.ply"])].
Proof.
  apply (setFrames_sorted (mkCtl {[0%nat := ["f10.ply"; "f2.ply"; "f7.compressed.ply"]]} 1 0 None (-1) false (-1) false 0 []) 0
           ["f10.ply"; "f2.ply"; "f7.compressed.ply"]).
  - vm_compute. reflexivity.
  - repeat constructor; vm_compute; eexists; reflexivity.
Defined.

Example setFrames_ex :
  seqFiles (setFrames (mkCtl {[0%nat := ["f10.ply"; "f2.ply"; "f7.compressed.ply"]]} 1 0 None (-1) false (-1) false 0 []) 0)
  = ["f2.ply"; "f7.compressed.ply"; "f10.ply"].
Proof. vm_compute. reflexivity. Qed.

(** *** Re-registration of the frame list *)

(** C10 (amended). [setFrames] on the caller's array [src] keeps the current
    splat, the current frame, the loading flag, the pending frame and the
    scene's dirty state, and leaves the caller's array as it was; so, when no
    load is in flight, a request for the (stale) current frame index returns
    at once and changes nothing. *)
Theorem setFrames_keeps_controller c src :
  (src < c_next_arr c)%nat ->
  c_splat (setFrames c src) = c_splat c /\
  c_frame (setFrames c src) = c_frame c /\
  c_loading (setFrames c src) = c_loading c /\
  c_next (setFrames c src) = c_next c /\
  c_dirty (setFrames c src) = c_dirty c /\
  c_arrays (setFrames c src) !! src = c_arrays c !! src /\
  (c_loading c = false ->
   setFrame_entry (setFrames c src) (c_frame c) = (setFrames c src, PDone)).
Proof.
  intros Hsrc. unfold setFrames; simpl.
  split; [done|]. split; [done|]. split; [done|]. split; [done|]. split; [done|].
  split.
  - rewrite !lookup_insert_ne by lia. reflexivity.
  - intros Hl. unfold setFrame_entry. simpl. rewrite Hl, Z.eqb_refl.
    destruct (negb _); reflexivity.
Qed.

Lemma setFrames_keeps_controller_witness :
  let c := mkCtl {[0%nat := ["a0.ply"]; 1%nat := ["b1.ply"; "b0.ply"]]} 2 0 (Some 3%nat) 0 false (-1) true 4 [] in
  (1 < c_next_arr c)%nat /\
  c_splat (setFrames c 1) = c_splat c /\
  c_frame (setFrames c 1) = c_frame c /\
  c_loading (setFrames c 1) = c_loading c /\
  c_next (setFrames c 1) = c_next c /\
  c_dirty (setFrames c 1) = c_dirty c /\
  c_arrays (setFrames c 1) !! 1%nat = c_arrays c !! 1%nat /\
  (c_loading c = false -> setFrame_entry (setFrames c 1) (c_frame c) = (setFrames c 1, PDone)).
Proof.
  intros c. split; [simpl; lia|].
  apply (setFrames_keeps_controller c 1). simpl. lia.
Defined.

(** C10, counterexample: frame 0 is current and a load of frame 1 is in
    flight when the list is re-registered; [requestFrame(0)] then records 0 as
    the pending frame, and when the load of frame 1 completes the new file at
    index 0 is imported.  Without that request it is not. *)
Lemma stale_request_loads_new_file :
  let pre := [ASetFrames ["a0.ply"; "a1.ply"]; ACall 0; AImport 0 IOk; ARender 0; ACall 1;
              ASetFrames ["b0.ply"; "b1.ply"]] in
  c_frame (fst (run (ctl_init, []) pre)) = 0 /\
  EvImport 0 "b0.ply" ∈ c_trace (fst (run (ctl_init, []) (pre ++ [ACall 0; AImport 1 IOk; ARender 1]))) /\
  EvImport 0 "b0.ply" ∉ c_trace (fst (run (ctl_init, []) (pre ++ [AImport 1 IOk; ARender 1]))).
Proof.
  vm_compute. split; [reflexivity|]. split.
  - apply list_elem_of_In. simpl. tauto.
  - intros Hin. apply list_elem_of_In in Hin. simpl in Hin.
    repeat (destruct Hin as [Hin|Hin]; [discriminate|]). exact Hin.
Qed.

(** *** The loading flag *)

(** C1 (amended). When the first render of a loaded frame [f] resolves, the
    frame is adopted with the loading flag cleared, and the call resolves; the
    flag is set again before that, by the chained [setFrame] of the pending
    frame, exactly when a pending frame is recorded, is in range, differs
    from [f] and the scene is clean. *)
Theorem resume_render_loading c f s :
  c_loading (adopt_frame c f s) = false /\
  snd (fst (resume_render c f s)) = PDone /\
  c_loading (fst (fst (resume_render c f s)))
    = negb (c_next c =? -1) && in_range c (c_next c) && negb (c_next c =? f) && negb (c_dirty c).
Proof.
  split; [reflexivity|].
  unfold resume_render. simpl.
  destruct (c_next c =? -1) eqn:En; simpl; [done|].
  unfold setFrame_entry, in_range, seqFiles. simpl.
  destruct ((0 <=? c_next c) && (c_next c <? _)) eqn:Er; simpl; [|done].
  destruct (c_next c =? f) eqn:Ef; simpl; [done|].
  destruct (c_dirty c); simpl; [done|].
  unfold start_load, seqFiles. simpl.
  destruct (_ !! Z.to_nat (c_next c)); done.
Qed.

(** C1, counterexample: [setFrame(0)] starts a load, [setFrame(1)] arrives
    meanwhile; when the load of frame 0 completes its call has resolved
    (process 0 is [PDone]) while the flag is set, by the load of frame 1. *)
Lemma completed_call_leaves_loading_set :
  let '(c, ps) := run (ctl_init, []) [ASetFrames ["f1.ply"; "f0.ply"]; ACall 0; ACall 1; AImport 0 IOk; ARender 0] in
  ps !! 0%nat = Some PDone /\ c_loading c = true.
Proof. vm_compute. split; reflexivity. Qed.

(** A rejection of the import leaves the flag set: there is no [finally]. *)
Example import_rejection_keeps_loading :
  let '(c, ps) := run (ctl_init, []) [ASetFrames ["f0.ply"; "f1.ply"]; ACall 1; AImport 0 (IErr "io")] in
  ps = [PFailed "io"] /\ c_loading c = true.
Proof. vm_compute. split; reflexivity. Qed.

(** *** Coalescing of requests *)

Lemma imports_app l1 l2 : imports (l1 ++ l2) = imports l1 ++ imports l2.
Proof. unfold imports. apply omap_app. Qed.

Lemma start_load_in_range c f :
  in_range c f = true ->
  exists name, start_load c f = (emit_ctl (set_loading c true) [EvImport f name], PAwaitImport f).
Proof.
  unfold in_range, start_load. intros Hr. apply andb_true_iff in Hr as [H0 H1].
  apply Z.leb_le in H0. apply Z.ltb_lt in H1.
  destruct (seqFiles (set_loading c true) !! Z.to_nat f) eqn:E; [eauto|].
  apply lookup_ge_None in E. unfold seqFiles in *. simpl in E. lia.
Qed.

Lemma run_app x l1 l2 : run x (l1 ++ l2) = run (run x l1) l2.
Proof. apply fold_left_app. Qed.

(** While [sequenceLoading] is set, in-range requests only overwrite
    [nextFrame], and the import of the load in flight leaves the rest alone. *)
Lemma pending_run acts : forall c ps,
  c_loading c = true ->
  Forall (fun a => (exists x, a = ACall x /\ in_range c x = true) \/ (exists j, a = AImport j IOk)) acts ->
  c_loading (fst (run (c, ps) acts)) = true /\ c_arrays (fst (run (c, ps) acts)) = c_arrays c /\
  c_seq (fst (run (c, ps) acts)) = c_seq c /\ c_trace (fst (run (c, ps) acts)) = c_trace c /\
  c_next (fst (run (c, ps) acts)) = default (c_next c) (last (calls acts)).
Proof.
  induction acts as [|a acts IH]; intros c ps Hl Ha; [done|].
  apply Forall_cons in Ha as [Ha Hr].
  change (run (c, ps) (a :: acts)) with (run (step (c, ps) a) acts).
  assert (S1 : c_loading (fst (step (c, ps) a)) = true /\ c_arrays (fst (step (c, ps) a)) = c_arrays c /\
               c_seq (fst (step (c, ps) a)) = c_seq c /\ c_trace (fst (step (c, ps) a)) = c_trace c /\
               c_next (fst (step (c, ps) a)) = default (c_next c) (last (calls [a]))).
  { destruct Ha as [(x & -> & Hx)|(j & ->)]; simpl.
    - unfold setFrame_entry. rewrite Hx, Hl. simpl. done.
    - destruct (ps !! j) as [[| | |f|]|]; simpl; done. }
  destruct (step (c, ps) a) as [c1 ps1]. simpl in S1. destruct S1 as (L1 & A1 & Q1 & T1 & N1).
  assert (Hr' : Forall (fun a => (exists x, a = ACall x /\ in_range c1 x = true) \/
                                 (exists j, a = AImport j IOk)) acts).
  { eapply Forall_impl; [exact Hr|]. intros b [(x & -> & Hx)|Hb]; [left|right; done].
    exists x. split; [done|]. unfold in_range, seqFiles in *. rewrite A1, Q1. done. }
  destruct (IH c1 ps1 L1 Hr') as (L2 & A2 & Q2 & T2 & N2).
  split; [done|]. split; [congruence|]. split; [congruence|]. split; [congruence|].
  rewrite N2, N1.
  change (a :: acts) with ([a] ++ acts). unfold calls. rewrite omap_app, last_app.
  destruct (last (omap _ acts)); reflexivity.
Qed.

Lemma calls_while_loading c ps xs :
  c_loading c = true -> Forall (fun x => in_range c x = true) xs ->
  run (c, ps) (map ACall xs) =
    (match last xs with Some x => set_next c x | None => c end, ps ++ replicate (length xs) PDone).
Proof.
  revert c ps. induction xs as [|x xs IH]; intros c ps Hl Hx.
  - simpl. rewrite app_nil_r. done.
  - apply Forall_cons in Hx as [Hx Hr].
    change (run (c, ps) (map ACall (x :: xs))) with (run (step (c, ps) (ACall x)) (map ACall xs)).
    assert (E : step (c, ps) (ACall x) = (set_next c x, ps ++ [PDone])).
    { simpl. unfold setFrame_entry. rewrite Hx, Hl. reflexivity. }
    rewrite E, (IH (set_next c x) (ps ++ [PDone]) Hl Hr), last_cons, <- app_assoc.
    destruct (last xs); reflexivity.
Qed.

Lemma import_step c ps i f :
  ps !! i = Some (PAwaitImport f) ->
  step (c, ps) (AImport i IOk) = (fst (resume_import c f IOk), <[i := PAwaitRender f (c_fresh c)]> ps).
Proof. intros H. simpl. rewrite H. unfold replace_spawn. rewrite app_nil_r. reflexivity. Qed.

Lemma render_step c ps i f s :
  ps !! i = Some (PAwaitRender f s) ->
  step (c, ps) (ARender i) = let '(c', p, sp) := resume_render c f s in (c', replace_spawn ps i p sp).
Proof. intros H. simpl. rewrite H. reflexivity. Qed.

(** The first render of the load of [f], once [nextFrame] holds [cc]. *)
Lemma render_after_pending c0 f cc :
  in_range c0 cc = true ->
  let '(c5, q, sp) := resume_render (fst (resume_import (set_next c0 cc) f IOk)) f (c_fresh c0) in
  q = PDone /\ c_next c5 = -1 /\
  (cc = f -> sp = Some PDone /\ imports (c_trace c5) = imports (c_trace c0)) /\
  (cc <> f -> c_dirty c0 = false ->
     sp = Some (PAwaitImport cc) /\ imports (c_trace c5) = imports (c_trace c0) ++ [cc]) /\
  (cc <> f -> c_dirty c0 = true ->
     sp = Some (PAwaitPopup cc) /\ imports (c_trace c5) = imports (c_trace c0) /\
     imports (c_trace (fst (resume_popup c5 cc true))) = imports (c_trace c0) ++ [cc]).
Proof.
  intros Hc.
  unfold resume_render. simpl.
  assert (Hn : (cc =? -1) = false).
  { unfold in_range in Hc. apply andb_true_iff in Hc as [H0 _]. apply Z.leb_le in H0.
    apply Z.eqb_neq. lia. }
  rewrite Hn. simpl.
  unfold setFrame_entry.
  match goal with |- context [in_range ?c cc] => change (in_range c cc) with (in_range c0 cc) end.
  rewrite Hc. simpl.
  destruct (cc =? f) eqn:Ef; simpl.
  - apply Z.eqb_eq in Ef. split; [done|]. split; [done|].
    split; [intros _; split; [done|]; rewrite imports_app; simpl;
            destruct (c_splat c0); simpl; rewrite ?app_nil_r; done|].
    split; intros Hne; done.
  - apply Z.eqb_neq in Ef.
    destruct (c_dirty c0) eqn:Ed; simpl.
    + split; [done|]. split; [done|]. split; [done|]. split; [intros _ Hd; discriminate|].
      intros _ _. split; [done|].
      split; [rewrite imports_app; destruct (c_splat c0); simpl; rewrite ?app_nil_r; done|].
      unfold resume_popup.
      match goal with |- context [start_load ?c cc] =>
        destruct (start_load_in_range c cc Hc) as [name ->] end.
      simpl. rewrite !imports_app. destruct (c_splat c0); simpl; rewrite ?app_nil_r; done.
    + match goal with |- context [start_load ?c cc] =>
        destruct (start_load_in_range c cc Hc) as [name ->] end.
      simpl. split; [done|]. split; [done|]. split; [done|].
      split; [|intros _ Hd; discriminate].
      intros _ _. split; [done|].
      rewrite !imports_app. destruct (c_splat c0); simpl; rewrite ?app_nil_r; done.
Qed.

(** C4 (amended). A load of [f] is in flight: [sequenceLoading] is set and the
    call [i] waits for its import.  The in-range requests [xs1 ++ xs2] are
    issued while it is in flight: [xs1] before the import resolves, [xs2]
    after it, while the first render is pending.  Each request returns at
    once and, at every point, the pending slot holds the latest request so
    far; no import is started meanwhile.  When the first render completes,
    the slot is emptied and the only import started is that of the last
    request [cc]: at once if [cc <> f] and the scene is clean, after the popup
    is confirmed if it is dirty, and none if [cc = f]. *)
Theorem coalesce_pending c0 ps0 i f xs1 xs2 cc :
  c_loading c0 = true -> ps0 !! i = Some (PAwaitImport f) ->
  Forall (fun x => in_range c0 x = true) (xs1 ++ xs2) -> last (xs1 ++ xs2) = Some cc ->
  (forall k, c_next (fst (run (c0, ps0) (take k (map ACall xs1 ++ [AImport i IOk] ++ map ACall xs2))))
             = default (c_next c0) (last (calls (take k (map ACall xs1 ++ [AImport i IOk] ++ map ACall xs2))))) /\
  run (c0, ps0) (map ACall xs1 ++ [AImport i IOk] ++ map ACall xs2)
    = (fst (resume_import (set_next c0 cc) f IOk),
       <[i := PAwaitRender f (c_fresh c0)]> ps0 ++ replicate (length (xs1 ++ xs2)) PDone) /\
  let '(c5, ps5) := run (c0, ps0) (map ACall xs1 ++ [AImport i IOk] ++ map ACall xs2 ++ [ARender i]) in
  c_next c5 = -1 /\
  (cc = f -> ps5 = <[i := PDone]> ps0 ++ replicate (length (xs1 ++ xs2)) PDone ++ [PDone] /\
     imports (c_trace c5) = imports (c_trace c0)) /\
  (cc <> f -> c_dirty c0 = false ->
     ps5 = <[i := PDone]> ps0 ++ replicate (length (xs1 ++ xs2)) PDone ++ [PAwaitImport cc] /\
     imports (c_trace c5) = imports (c_trace c0) ++ [cc]) /\
  (cc <> f -> c_dirty c0 = true ->
     ps5 = <[i := PDone]> ps0 ++ replicate (length (xs1 ++ xs2)) PDone ++ [PAwaitPopup cc] /\
     imports (c_trace c5) = imports (c_trace c0) /\
     imports (c_trace (fst (resume_popup c5 cc true))) = imports (c_trace c0) ++ [cc]).
Proof.
  intros Hl Hi Hx Hc.
  assert (Hilt : (i < length ps0)%nat) by (eapply lookup_lt_Some; exact Hi).
  assert (Hcc : in_range c0 cc = true).
  { rewrite Forall_forall in Hx. apply Hx. apply last_Some in Hc as [l ->].
    apply elem_of_app. right. apply list_elem_of_singleton. done. }
  pose proof Hx as Hx12. apply Forall_app in Hx12 as [Hx1 Hx2].
  assert (Hph : Forall (fun a => (exists x, a = ACall x /\ in_range c0 x = true) \/
                                 (exists j, a = AImport j IOk))
                       (map ACall xs1 ++ [AImport i IOk] ++ map ACall xs2)).
  { apply Forall_app. split; [|apply Forall_app; split].
    - apply Forall_map. eapply Forall_impl; [exact Hx1|]. intros x Hx'. left. eauto.
    - constructor; [right; eauto|constructor].
    - apply Forall_map. eapply Forall_impl; [exact Hx2|]. intros x Hx'. left. eauto. }
  assert (Hrun : run (c0, ps0) (map ACall xs1 ++ [AImport i IOk] ++ map ACall xs2)
    = (fst (resume_import (set_next c0 cc) f IOk),
       <[i := PAwaitRender f (c_fresh c0)]> ps0 ++ replicate (length (xs1 ++ xs2)) PDone)).
  { rewrite !run_app, (calls_while_loading c0 ps0 xs1 Hl Hx1).
    assert (Hlk : (ps0 ++ replicate (length xs1) PDone) !! i = Some (PAwaitImport f))
      by (rewrite lookup_app_l; done).
    change (run (?c, ?ps) [AImport i IOk]) with (step (c, ps) (AImport i IOk)).
    rewrite (import_step _ _ _ _ Hlk), insert_app_l by done.
    rewrite length_app, replicate_add, app_assoc.
    rewrite last_app in Hc.
    destruct (last xs1) as [x1|] eqn:L1;
      (rewrite calls_while_loading; [|exact Hl|exact Hx2]);
      destruct (last xs2) as [x2|] eqn:L2; simplify_eq; reflexivity. }
  split; [|split; [exact Hrun|]].
  { intros k. apply (pending_run _ c0 ps0 Hl (Forall_take _ _ _ Hph)). }
  assert (Eacts : map ACall xs1 ++ [AImport i IOk] ++ map ACall xs2 ++ [ARender i]
                  = (map ACall xs1 ++ [AImport i IOk] ++ map ACall xs2) ++ [ARender i])
    by (rewrite <- !app_assoc; reflexivity).
  rewrite Eacts, run_app, Hrun.
  set (n := length (xs1 ++ xs2)).
  assert (Hlk : (<[i := PAwaitRender f (c_fresh c0)]> ps0 ++ replicate n PDone) !! i
                = Some (PAwaitRender f (c_fresh c0))).
  { rewrite lookup_app_l by (rewrite length_insert; done). apply list_lookup_insert_eq. done. }
  change (run (?c, ?ps) [ARender i]) with (step (c, ps) (ARender i)).
  rewrite (render_step _ _ _ _ _ Hlk).
  pose proof (render_after_pending c0 f cc Hcc) as R.
  destruct (resume_render _ f (c_fresh c0)) as [[c5 q] sp].
  destruct R as (-> & Hn & R1 & R2 & R3).
  unfold replace_spawn.
  rewrite insert_app_l by (rewrite length_insert; done).
  rewrite list_insert_insert_eq, <- app_assoc.
  split; [done|]. split; [|split].
  - intros E. destruct (R1 E) as [-> ?]. done.
  - intros E D. destruct (R2 E D) as [-> ?]. done.
  - intros E D. destruct (R3 E D) as (-> & ? & ?). done.
Qed.

Lemma coalesce_pending_witness :
  let c0 := mkCtl {[0%nat := ["f0.ply"; "f1.ply"; "f2.ply"; "f3.ply"; "f4.ply"; "f5.ply"]]}
                  1 0 None (-1) true (-1) false 0 [EvImport 1 "f1.ply"] in
  let ps0 := [PAwaitImport 1] in
  c_loading c0 = true /\ ps0 !! 0%nat = Some (PAwaitImport 1) /\
  Forall (fun x => in_range c0 x = true) ([2] ++ [5; 3]) /\ last ([2] ++ [5; 3]) = Some 3 /\
  (forall k, c_next (fst (run (c0, ps0) (take k (map ACall [2] ++ [AImport 0 IOk] ++ map ACall [5; 3]))))
             = default (c_next c0) (last (calls (take k (map ACall [2] ++ [AImport 0 IOk] ++ map ACall [5; 3]))))) /\
  run (c0, ps0) (map ACall [2] ++ [AImport 0 IOk] ++ map ACall [5; 3])
    = (fst (resume_import (set_next c0 3) 1 IOk),
       <[0%nat := PAwaitRender 1 (c_fresh c0)]> ps0 ++ replicate (length ([2] ++ [5; 3])) PDone) /\
  let '(c5, ps5) := run (c0, ps0) (map ACall [2] ++ [AImport 0 IOk] ++ map ACall [5; 3] ++ [ARender 0]) in
  c_next c5 = -1 /\
  (3 = 1 -> ps5 = <[0%nat := PDone]> ps0 ++ replicate (length ([2] ++ [5; 3])) PDone ++ [PDone] /\
     imports (c_trace c5) = imports (c_trace c0)) /\
  (3 <> 1 -> c_dirty c0 = false ->
     ps5 = <[0%nat := PDone]> ps0 ++ replicate (length ([2] ++ [5; 3])) PDone ++ [PAwaitImport 3] /\
     imports (c_trace c5) = imports (c_trace c0) ++ [3]) /\
  (3 <> 1 -> c_dirty c0 = true ->
     ps5 = <[0%nat := PDone]> ps0 ++ replicate (length ([2] ++ [5; 3])) PDone ++ [PAwaitPopup 3] /\
     imports (c_trace c5) = imports (c_trace c0) /\
     imports (c_trace (fst (resume_popup c5 3 true))) = imports (c_trace c0) ++ [3]).
Proof.
  intros c0 ps0.
  split; [reflexivity|]. split; [reflexivity|].
  split; [repeat constructor|]. split; [reflexivity|].
  apply (coalesce_pending c0 ps0 0 1 [2] [5; 3] 3); [reflexivity|reflexivity|repeat constructor|reflexivity].
Defined.

(** C4, counterexample: the requests 2, 5, 3 of the spec's example, issued
    while frame 3 itself is loading, start no further load. *)
Lemma coalesce_to_loaded_frame :
  let '(c, ps) := run (ctl_init, [])
    [ASetFrames ["f0.ply"; "f1.ply"; "f2.ply"; "f3.ply"; "f4.ply"; "f5.ply"];
     ACall 3; ACall 2; ACall 5; ACall 3; AImport 0 IOk; ARender 0] in
  imports (c_trace c) = [3] /\ ps = [PDone; PDone; PDone; PDone; PDone].
Proof. vm_compute. split; reflexivity. Qed.

(** *** Lifetime of the current splat *)

Lemma quiet_rendered evs : Forall quiet evs -> rendered evs = [].
Proof. induction 1 as [|[] ? ? ? IH]; simpl in *; done. Qed.

Lemma quiet_destroyed evs : Forall quiet evs -> destroyed evs = [].
Proof. induction 1 as [|[] ? ? ? IH]; simpl in *; done. Qed.

Lemma rendered_app l1 l2 : rendered (l1 ++ l2) = rendered l1 ++ rendered l2.
Proof. apply omap_app. Qed.
Lemma destroyed_app l1 l2 : destroyed (l1 ++ l2) = destroyed l1 ++ destroyed l2.
Proof. apply omap_app. Qed.
Lemma psplats_app l1 l2 : psplats (l1 ++ l2) = psplats l1 ++ psplats l2.
Proof. apply omap_app. Qed.

(** Steps that append quiet events, keep the splat (or drop it with a
    [scene.clear]) and leave the imported splats alone keep the invariant. *)
Lemma inv_quiet c ps c' ps' evs :
  inv c ps ->
  c_trace c' = c_trace c ++ evs -> Forall quiet evs ->
  psplats ps' = psplats ps -> c_fresh c' = c_fresh c ->
  (c_splat c' = c_splat c \/ (c_splat c' = None /\ EvSceneClear ∈ evs)) ->
  inv c' ps'.
Proof.
  intros [F N CR CL DR DN SH CO] Et Q Ep Ef Es.
  assert (Er : rendered (c_trace c') = rendered (c_trace c))
    by (rewrite Et, rendered_app, (quiet_rendered _ Q), app_nil_r; done).
  assert (Ed : destroyed (c_trace c') = destroyed (c_trace c))
    by (rewrite Et, destroyed_app, (quiet_destroyed _ Q), app_nil_r; done).
  split; rewrite ?Er, ?Ed, ?Ep, ?Ef; try done.
  - intros p Hp. destruct Es as [Es|[Es _]]; [rewrite Es in Hp; auto|congruence].
  - intros p Hp. destruct Es as [Es|[Es _]]; [rewrite Es in Hp; auto|congruence].
  - intros k p Hk. rewrite Et in Hk |- *.
    destruct (decide (k < length (c_trace c))%nat) as [Hlt|Hge].
    + rewrite lookup_app_l in Hk by done.
      destruct (SH k p Hk) as (s & H0 & H1 & H2). exists s. split; [done|].
      rewrite lookup_app_l by lia. done.
    + rewrite lookup_app_r in Hk by lia.
      rewrite Forall_lookup in Q. specialize (Q _ _ Hk). done.
  - intros Hnc s Hs. rewrite Et in Hnc.
    assert (Hnc1 : EvSceneClear ∉ c_trace c) by (intros H; apply Hnc, elem_of_app; auto).
    destruct Es as [Es|[_ Hin]]; [rewrite Es; auto|].
    exfalso. apply Hnc, elem_of_app. auto.
Qed.

Lemma psplats_split ps i x :
  ps !! i = Some x -> psplats ps = psplats (take i ps) ++ psplats [x] ++ psplats (drop (S i) ps).
Proof.
  intros Hx. rewrite <- (take_drop_middle ps i x Hx) at 1.
  change (x :: drop (S i) ps) with ([x] ++ drop (S i) ps).
  rewrite !psplats_app. reflexivity.
Qed.

Lemma psplats_insert ps i x q :
  ps !! i = Some x ->
  psplats (<[i := q]> ps) = psplats (take i ps) ++ psplats [q] ++ psplats (drop (S i) ps).
Proof.
  intros Hx. apply lookup_lt_Some in Hx.
  rewrite insert_take_drop by done.
  change (q :: drop (S i) ps) with ([q] ++ drop (S i) ps).
  rewrite !psplats_app. reflexivity.
Qed.

Lemma psplats_insert_same ps i x q :
  ps !! i = Some x -> psplats [x] = [] -> psplats [q] = [] ->
  psplats (<[i := q]> ps) = psplats ps.
Proof.
  intros Hx H1 H2. rewrite (psplats_insert ps i x q Hx), (psplats_split ps i x Hx), H1, H2.
  reflexivity.
Qed.

Lemma start_load_quiet c f c' p :
  start_load c f = (c', p) ->
  c_splat c' = c_splat c /\ c_fresh c' = c_fresh c /\ psplats [p] = [] /\
  exists evs, c_trace c' = c_trace c ++ evs /\ Forall quiet evs.
Proof.
  unfold start_load. destruct (_ !! _); intros [= <- <-]; simpl;
    (split; [done|]; split; [done|]; split; [done|]).
  - eexists; split; [reflexivity|]. repeat constructor.
  - exists []. rewrite app_nil_r. split; [done|]. constructor.
Qed.

Lemma setFrame_entry_quiet c f c' p :
  setFrame_entry c f = (c', p) ->
  c_splat c' = c_splat c /\ c_fresh c' = c_fresh c /\ psplats [p] = [] /\
  exists evs, c_trace c' = c_trace c ++ evs /\ Forall quiet evs.
Proof.
  unfold setFrame_entry.
  destruct (negb _); [|destruct (c_loading c); [|destruct (f =? c_frame c); [|destruct (c_dirty c)]]];
    try (intros [= <- <-]; simpl; split; [done|]; split; [done|]; split; [done|];
         exists []; rewrite app_nil_r; split; [done|constructor]).
  apply start_load_quiet.
Qed.

Lemma resume_popup_quiet c f yes c' p :
  resume_popup c f yes = (c', p) ->
  c_fresh c' = c_fresh c /\ psplats [p] = [] /\
  exists evs, c_trace c' = c_trace c ++ evs /\ Forall quiet evs /\
    (c_splat c' = c_splat c \/ (c_splat c' = None /\ EvSceneClear ∈ evs)).
Proof.
  unfold resume_popup. destruct yes.
  - intros E. destruct (start_load_quiet _ _ _ _ E) as (Hs & Hf & Hp & evs & Ht & Q).
    split; [done|]. split; [done|].
    exists (EvSceneClear :: evs). rewrite Ht. simpl. rewrite <- app_assoc.
    split; [done|]. split; [constructor; [exact I|done]|].
    right. split; [done|]. apply elem_of_cons; auto.
  - intros [= <- <-]. split; [done|]. split; [done|].
    exists []. rewrite app_nil_r. split; [done|]. split; [constructor|]. auto.
Qed.

Lemma inv_import c ps i f :
  inv c ps -> ps !! i = Some (PAwaitImport f) ->
  inv (fst (resume_import c f IOk)) (<[i := PAwaitRender f (c_fresh c)]> ps).
Proof.
  intros [F N CR CL DR DN SH CO] Hi.
  pose proof (psplats_insert ps i _ (PAwaitRender f (c_fresh c)) Hi) as Ei. simpl in Ei.
  rewrite (psplats_split ps i _ Hi) in F, N. simpl in F, N.
  assert (Hp : rendered (c_trace c) ++ psplats (take i ps) ++ c_fresh c :: psplats (drop (S i) ps)
               ≡ₚ c_fresh c :: (rendered (c_trace c) ++ psplats (take i ps) ++ psplats (drop (S i) ps))).
  { rewrite app_assoc. symmetry. rewrite app_assoc. apply Permutation_middle. }
  split; simpl; rewrite ?Ei; auto.
  - rewrite Hp. constructor; [lia|]. eapply Forall_impl; [exact F|]. simpl. lia.
  - rewrite Hp. constructor; [|done].
    intros Hin. rewrite Forall_forall in F. specialize (F _ Hin). lia.
Qed.

Lemma inv_adopt c ps i f s :
  inv c ps -> ps !! i = Some (PAwaitRender f s) ->
  inv (adopt_frame c f s) (<[i := PDone]> ps).
Proof.
  intros [F N CR CL DR DN SH CO] Hi.
  pose proof (psplats_insert ps i _ PDone Hi) as Ei. simpl in Ei.
  rewrite (psplats_split ps i _ Hi) in F, N. simpl in F, N.
  set (R := rendered (c_trace c)) in *.
  set (A := psplats (take i ps)) in *. set (B := psplats (drop (S i) ps)) in *.
  assert (Hp : R ++ A ++ s :: B ≡ₚ s :: (R ++ A ++ B)).
  { rewrite app_assoc. symmetry. rewrite app_assoc. apply Permutation_middle. }
  rewrite Hp in F, N. apply Forall_cons in F as [Fs F]. apply NoDup_cons in N as [Ns N].
  assert (HsR : s ∉ R) by (intros H; apply Ns, elem_of_app; auto).
  assert (HsD : s ∉ destroyed (c_trace c)) by (intros H; apply HsR, DR, H).
  unfold adopt_frame.
  destruct (c_splat c) as [p|] eqn:Ecur.
  - assert (HpR : p ∈ R) by auto.
    assert (HpD : p ∉ destroyed (c_trace c)) by auto.
    assert (Hsp : s <> p) by (intros ->; done).
    assert (Er : rendered (c_trace c ++ [EvFirstRender s; EvDestroy p]) = R ++ [s])
      by (rewrite rendered_app; reflexivity).
    assert (Ed : destroyed (c_trace c ++ [EvFirstRender s; EvDestroy p]) = destroyed (c_trace c) ++ [p])
      by (rewrite destroyed_app; reflexivity).
    split; simpl; rewrite ?Er, ?Ed, ?Ei.
    + rewrite <- app_assoc. simpl. rewrite <- Permutation_middle. constructor; [done|].
      eapply Forall_impl; [exact F|]. simpl. lia.
    + rewrite <- app_assoc. simpl. rewrite <- Permutation_middle. constructor; done.
    + intros q [= <-]. apply elem_of_app. right. apply list_elem_of_singleton. done.
    + intros q [= <-] Hin. apply elem_of_app in Hin as [Hin|Hin]; [done|].
      apply list_elem_of_singleton in Hin. done.
    + intros q Hq. apply elem_of_app in Hq as [Hq|Hq].
      * apply elem_of_app. left. auto.
      * apply list_elem_of_singleton in Hq as ->. apply elem_of_app. auto.
    + apply NoDup_app. split; [done|]. split; [|apply NoDup_singleton].
      intros q Hq Hq'. apply list_elem_of_singleton in Hq' as ->. done.
    + intros k q Hk.
      destruct (decide (k < length (c_trace c))%nat) as [Hlt|Hge].
      * rewrite lookup_app_l in Hk by done.
        destruct (SH k q Hk) as (s' & H0 & H1 & H2). exists s'. split; [done|].
        rewrite lookup_app_l by lia. done.
      * rewrite lookup_app_r in Hk by lia.
        destruct (k - length (c_trace c))%nat as [|[|m]] eqn:Ek; simpl in Hk; try discriminate.
        injection Hk as <-. exists s. split; [lia|].
        rewrite lookup_app_r by lia.
        replace (pred k - length (c_trace c))%nat with 0%nat by lia. done.
    + intros Hnc q Hq.
      assert (Hnc1 : EvSceneClear ∉ c_trace c) by (intros H; apply Hnc, elem_of_app; auto).
      apply elem_of_app in Hq as [Hq|Hq].
      * destruct (CO Hnc1 q Hq) as [Hc|Hc].
        -- injection Hc as ->. right. apply elem_of_app. right. apply list_elem_of_singleton. done.
        -- right. apply elem_of_app. auto.
      * apply list_elem_of_singleton in Hq as ->. auto.
  - assert (Er : rendered (c_trace c ++ [EvFirstRender s]) = R ++ [s])
      by (rewrite rendered_app; reflexivity).
    assert (Ed : destroyed (c_trace c ++ [EvFirstRender s]) = destroyed (c_trace c))
      by (rewrite destroyed_app, app_nil_r; reflexivity).
    split; simpl; rewrite ?Er, ?Ed, ?Ei.
    + rewrite <- app_assoc. simpl. rewrite <- Permutation_middle. constructor; [done|].
      eapply Forall_impl; [exact F|]. simpl. lia.
    + rewrite <- app_assoc. simpl. rewrite <- Permutation_middle. constructor; done.
    + intros q [= <-]. apply elem_of_app. right. apply list_elem_of_singleton. done.
    + intros q [= <-]. done.
    + intros q Hq. apply elem_of_app. left. auto.
    + done.
    + intros k q Hk.
      destruct (decide (k < length (c_trace c))%nat) as [Hlt|Hge].
      * rewrite lookup_app_l in Hk by done.
        destruct (SH k q Hk) as (s' & H0 & H1 & H2). exists s'. split; [done|].
        rewrite lookup_app_l by lia. done.
      * rewrite lookup_app_r in Hk by lia.
        destruct (k - length (c_trace c))%nat as [|m] eqn:Ek; simpl in Hk; [discriminate|].
        rewrite lookup_nil in Hk. discriminate.
    + intros Hnc q Hq.
      assert (Hnc1 : EvSceneClear ∉ c_trace c) by (intros H; apply Hnc, elem_of_app; auto).
      apply elem_of_app in Hq as [Hq|Hq].
      * destruct (CO Hnc1 q Hq) as [Hc|Hc]; [discriminate|auto].
      * apply list_elem_of_singleton in Hq as ->. auto.
Qed.

Lemma inv_same c ps c' ps' :
  inv c ps -> c_trace c' = c_trace c -> c_splat c' = c_splat c -> c_fresh c' = c_fresh c ->
  psplats ps' = psplats ps -> inv c' ps'.
Proof.
  intros I Et Es Ef Ep. apply (inv_quiet c ps c' ps' [] I); rewrite ?app_nil_r; auto.
Qed.

Lemma inv_entry c ps f c' p :
  inv c ps -> setFrame_entry c f = (c', p) -> inv c' (ps ++ [p]).
Proof.
  intros I E. destruct (setFrame_entry_quiet _ _ _ _ E) as (Hs & Hf & Hp & evs & Ht & Q).
  apply (inv_quiet c ps c' _ evs I); auto.
  rewrite psplats_app, Hp, app_nil_r. done.
Qed.

Lemma inv_step x a : inv (fst x) (snd x) -> inv (fst (step x a)) (snd (step x a)).
Proof.
  destruct x as [c ps]. simpl. intros I.
  destruct a as [f|i yes|i o|i|b|l]; simpl.
  - destruct (setFrame_entry c f) as [c' p] eqn:E. simpl. eapply inv_entry; eauto.
  - destruct (ps !! i) as [[| |f| |]|] eqn:Ei; try exact I.
    destruct (resume_popup c f yes) as [c' p] eqn:E. simpl.
    destruct (resume_popup_quiet _ _ _ _ _ E) as (Hf & Hp & evs & Ht & Q & Hs).
    apply (inv_quiet c ps c' _ evs I); auto.
    unfold replace_spawn. rewrite app_nil_r. eapply psplats_insert_same; eauto.
  - destruct (ps !! i) as [[| | |f|]|] eqn:Ei; try exact I.
    destruct o as [| |e]; simpl; unfold replace_spawn; rewrite app_nil_r.
    + apply inv_import; done.
    + apply (inv_same c ps); auto. eapply psplats_insert_same; eauto.
    + apply (inv_same c ps); auto. eapply psplats_insert_same; eauto.
  - destruct (ps !! i) as [[| | | |f s]|] eqn:Ei; try exact I.
    pose proof (inv_adopt c ps i f s I Ei) as IA.
    unfold resume_render.
    change (c_next (adopt_frame c f s)) with (c_next c).
    destruct (c_next c =? -1); simpl.
    + unfold replace_spawn. rewrite app_nil_r. exact IA.
    + destruct (setFrame_entry (set_next (adopt_frame c f s) (-1)) (c_next c))
        as [c2 p] eqn:E. simpl.
      unfold replace_spawn. eapply inv_entry; [|exact E].
      apply (inv_same _ _ _ _ IA); done.
  - apply (inv_same c ps); done.
  - apply (inv_quiet c ps _ ps [EvFrames (length (js_sort sorter l))] I); simpl; auto.
    + unfold setFrames. simpl. rewrite !lookup_insert_eq. simpl. reflexivity.
    + repeat constructor.
Qed.

Lemma inv_run acts : forall x, inv (fst x) (snd x) -> inv (fst (run x acts)) (snd (run x acts)).
Proof.
  induction acts as [|a acts IH]; intros x I; simpl; [done|].
  apply IH, inv_step, I.
Qed.

Lemma inv_init : inv ctl_init [].
Proof.
  split; simpl; try apply NoDup_nil_2; try apply Forall_nil.
  - done.
  - intros p Hp. discriminate.
  - intros p Hp. discriminate.
  - intros p Hp. by apply elem_of_nil in Hp.
  - intros k p Hk. destruct k; discriminate.
  - intros _ p Hp. by apply elem_of_nil in Hp.
Qed.

Lemma gone_quiet p c ps c' ps' evs :
  gone p c ps -> c_trace c' = c_trace c ++ evs -> Forall quiet evs ->
  psplats ps' = psplats ps -> c_fresh c' = c_fresh c ->
  (c_splat c' = c_splat c \/ c_splat c' = None) -> gone p c' ps'.
Proof.
  intros (Hf & Hd & Hs & Hp) Et Q Ep Ef Es.
  split; [lia|]. split; [|split].
  - rewrite Et, destroyed_app, (quiet_destroyed _ Q), app_nil_r. done.
  - destruct Es as [-> | ->]; congruence.
  - rewrite Ep. done.
Qed.

Lemma gone_import p c ps i f :
  gone p c ps -> ps !! i = Some (PAwaitImport f) ->
  gone p (fst (resume_import c f IOk)) (<[i := PAwaitRender f (c_fresh c)]> ps).
Proof.
  intros (Hf & Hd & Hs & Hp) Hi.
  pose proof (psplats_insert ps i _ (PAwaitRender f (c_fresh c)) Hi) as Ei. simpl in Ei.
  rewrite (psplats_split ps i _ Hi) in Hp. simpl in Hp.
  unfold gone; simpl. split; [lia|]. split; [done|]. split; [done|].
  rewrite Ei. intros H. apply elem_of_app in H as [H|H]; [apply Hp, elem_of_app; auto|].
  apply elem_of_cons in H as [->|H]; [lia|]. apply Hp, elem_of_app; auto.
Qed.

Lemma gone_adopt p c ps i f s :
  gone p c ps -> ps !! i = Some (PAwaitRender f s) ->
  gone p (adopt_frame c f s) (<[i := PDone]> ps).
Proof.
  intros (Hf & Hd & Hs & Hp) Hi.
  pose proof (psplats_insert ps i _ PDone Hi) as Ei. simpl in Ei.
  rewrite (psplats_split ps i _ Hi) in Hp. simpl in Hp.
  unfold gone, adopt_frame. simpl. split; [done|]. split; [|split].
  - rewrite destroyed_app. intros H. apply elem_of_app in H as [H|H]; [done|].
    destruct (c_splat c) as [q|]; simpl in H; [|by apply elem_of_nil in H].
    apply list_elem_of_singleton in H as ->. done.
  - intros [= ->]. apply Hp, elem_of_app. right. apply elem_of_cons. auto.
  - rewrite Ei. intros H. apply Hp. apply elem_of_app in H as [H|H];
      apply elem_of_app; [auto|right; apply elem_of_cons; auto].
Qed.

Lemma gone_entry p c ps f c' q :
  gone p c ps -> setFrame_entry c f = (c', q) -> gone p c' (ps ++ [q]).
Proof.
  intros G E. destruct (setFrame_entry_quiet _ _ _ _ E) as (Hs & Hf & Hp & evs & Ht & Q).
  apply (gone_quiet p c ps c' _ evs G); auto.
  rewrite psplats_app, Hp, app_nil_r. done.
Qed.

Lemma gone_step p x a : gone p (fst x) (snd x) -> gone p (fst (step x a)) (snd (step x a)).
Proof.
  destruct x as [c ps]. simpl. intros G.
  destruct a as [f|i yes|i o|i|b|l]; simpl.
  - destruct (setFrame_entry c f) as [c' q] eqn:E. simpl. eapply gone_entry; eauto.
  - destruct (ps !! i) as [[| |f| |]|] eqn:Ei; try exact G.
    destruct (resume_popup c f yes) as [c' q] eqn:E. simpl.
    destruct (resume_popup_quiet _ _ _ _ _ E) as (Hf & Hp & evs & Ht & Q & Hs).
    apply (gone_quiet p c ps c' _ evs G); auto.
    + unfold replace_spawn. rewrite app_nil_r. eapply psplats_insert_same; eauto.
    + destruct Hs as [Hs|[Hs _]]; auto.
  - destruct (ps !! i) as [[| | |f|]|] eqn:Ei; try exact G.
    destruct o as [| |e]; simpl; unfold replace_spawn; rewrite app_nil_r.
    + apply gone_import; done.
    + apply (gone_quiet p c ps c _ [] G); rewrite ?app_nil_r; auto.
      eapply psplats_insert_same; eauto.
    + apply (gone_quiet p c ps c _ [] G); rewrite ?app_nil_r; auto.
      eapply psplats_insert_same; eauto.
  - destruct (ps !! i) as [[| | | |f s]|] eqn:Ei; try exact G.
    pose proof (gone_adopt p c ps i f s G Ei) as GA.
    unfold resume_render.
    change (c_next (adopt_frame c f s)) with (c_next c).
    destruct (c_next c =? -1); simpl.
    + unfold replace_spawn. rewrite app_nil_r. exact GA.
    + destruct (setFrame_entry (set_next (adopt_frame c f s) (-1)) (c_next c))
        as [c2 q] eqn:E. simpl.
      unfold replace_spawn. eapply gone_entry; [|exact E]. exact GA.
  - exact G.
  - apply (gone_quiet p c ps _ ps [EvFrames (length (js_sort sorter l))] G); simpl; auto.
    + unfold setFrames. simpl. rewrite !lookup_insert_eq. simpl. reflexivity.
    + repeat constructor.
Qed.

Lemma gone_run p acts : forall x, gone p (fst x) (snd x) -> gone p (fst (run x acts)) (snd (run x acts)).
Proof.
  induction acts as [|a acts IH]; intros x G; simpl; [done|].
  apply IH, gone_step, G.
Qed.

(** A confirmed reset while [p] is the current splat: [scene.clear] comes
    first, then only quiet events; [sequenceSplat] is dropped; and from then on
    the controller never destroys [p]. *)
Lemma reset_step c ps i f p :
  inv c ps -> ps !! i = Some (PAwaitPopup f) -> c_splat c = Some p ->
  c_splat (fst (step (c, ps) (APopup i true))) = None /\
  (exists evs, c_trace (fst (step (c, ps) (APopup i true))) = c_trace c ++ EvSceneClear :: evs /\
     Forall quiet evs) /\
  forall acts, p ∉ destroyed (c_trace (fst (run (step (c, ps) (APopup i true)) acts))).
Proof.
  intros [F N CR CL DR DN SH CO] Ei Hc.
  assert (HpR : p ∈ rendered (c_trace c)) by auto.
  assert (Hpf : (p < c_fresh c)%nat).
  { rewrite Forall_forall in F. apply F, elem_of_app. auto. }
  assert (HpP : p ∉ psplats ps).
  { intros H. apply NoDup_app in N as (_ & N & _). exact (N p HpR H). }
  simpl. rewrite Ei. unfold resume_popup.
  destruct (start_load (set_splat (emit_ctl c [EvSceneClear]) None) f) as [c' q] eqn:E.
  destruct (start_load_quiet _ _ _ _ E) as (Hs & Hf & Hp & evs & Ht & Q).
  simpl in Hs, Hf, Ht. simpl.
  split; [done|]. split.
  { exists evs. rewrite Ht, <- app_assoc. done. }
  intros acts. apply (gone_run p acts (c', replace_spawn ps i q None)). simpl.
  split; [rewrite Hf; done|]. split; [|split].
  - rewrite Ht, <- app_assoc, destroyed_app. simpl.
    rewrite (quiet_destroyed _ Q), app_nil_r. auto.
  - rewrite Hs. done.
  - unfold replace_spawn. rewrite app_nil_r. erewrite psplats_insert_same; eauto.
Qed.

(** C5 (amended). In every run of the frame controller: no splat is destroyed
    twice, and only splats that rendered are destroyed; each destroy comes
    right after the first render of a different splat, the one adopted in its
    place; the current splat is not destroyed; as long as no confirmed reset
    ([scene.clear]) has happened, every splat that rendered is the current one
    or has been destroyed; and when a call waiting at the reset popup is
    confirmed while [p] is the current splat, [scene.clear] fires and
    [sequenceSplat] is dropped at once, before any further first render, and
    however the run continues the controller never destroys [p]. *)
Theorem splat_lifetime acts :
  let '(c, ps) := run (ctl_init, []) acts in
  NoDup (destroyed (c_trace c)) /\
  (forall p, p ∈ destroyed (c_trace c) -> p ∈ rendered (c_trace c)) /\
  (forall k p, c_trace c !! k = Some (EvDestroy p) ->
     exists s, (0 < k)%nat /\ c_trace c !! pred k = Some (EvFirstRender s) /\ s <> p) /\
  (forall p, c_splat c = Some p -> p ∉ destroyed (c_trace c)) /\
  (EvSceneClear ∉ c_trace c -> forall s, s ∈ rendered (c_trace c) ->
     c_splat c = Some s \/ s ∈ destroyed (c_trace c)) /\
  (forall i f p, ps !! i = Some (PAwaitPopup f) -> c_splat c = Some p ->
     c_splat (fst (step (c, ps) (APopup i true))) = None /\
     (exists evs, c_trace (fst (step (c, ps) (APopup i true))) = c_trace c ++ EvSceneClear :: evs /\
        Forall quiet evs) /\
     forall acts', p ∉ destroyed (c_trace (fst (run (step (c, ps) (APopup i true)) acts')))).
Proof.
  pose proof (inv_run acts (ctl_init, []) inv_init) as I.
  destruct (run (ctl_init, []) acts) as [c ps]. simpl in I.
  pose proof (reset_step c ps) as R.
  destruct I as [F N CR CL DR DN SH CO].
  split; [done|]. split; [auto|]. split; [auto|]. split; [auto|]. split; [auto|].
  intros i f p Hi Hc. apply (R i f p); [split|..]; auto.
Qed.

(** C5, counterexample: frame 0 is current, the scene is edited, and the
    request for frame 1 is confirmed in the popup: [scene.clear] fires and
    [sequenceSplat] is dropped before frame 1 renders; splat 0 is never
    destroyed by the controller. *)
Lemma reset_drops_current_splat :
  let tr := c_trace (fst (run (ctl_init, [])
    [ASetFrames ["f0.ply"; "f1.ply"]; ACall 0; AImport 0 IOk; ARender 0;
     ADirty true; ACall 1; APopup 1 true; AImport 1 IOk; ARender 1])) in
  tr = [EvFrames 2; EvImport 0 "f0.ply"; EvFirstRender 0;
        EvSceneClear; EvImport 1 "f1.ply"; EvFirstRender 1] /\
  c_splat (fst (run (ctl_init, [])
    [ASetFrames ["f0.ply"; "f1.ply"]; ACall 0; AImport 0 IOk; ARender 0;
     ADirty true; ACall 1; APopup 1 true; AImport 1 IOk; ARender 1])) = Some 1%nat /\
  EvDestroy 0 ∉ tr.
Proof.
  vm_compute. split; [reflexivity|]. split; [reflexivity|].
  intros Hin. apply list_elem_of_In in Hin. simpl in Hin.
  repeat (destruct Hin as [Hin|Hin]; [discriminate|]). exact Hin.
Qed.

(** ** Further properties of the code *)

(** *** Mask Propagator: applying a selector mask twice *)

Lemma mask_byte_idem (d x m : Z) : mask_byte d (mask_byte d x m) m = mask_byte d x m.
Proof.
  apply Z.bits_inj'. intros n Hn.
  destruct (Z.lt_ge_cases n 8) as [Hlt|Hge].
  - replace n with (Z.of_nat (Z.to_nat n)) by lia.
    rewrite !mask_byte_testbit by lia.
    destruct (Z.testbit d _); reflexivity.
  - unfold mask_byte. change 256 with (2 ^ 8).
    destruct (negb (m =? 255)); rewrite !Z.mod_pow2_bits_high by lia; reflexivity.
Qed.

(** [applySelectorMask] with the same oracle result is idempotent: a second
    pass over the already masked state changes nothing. *)
Theorem applySelectorMask_idem (deleted : Z) (state mask : list Z) :
  applySelectorMask deleted (applySelectorMask deleted state mask) mask
  = applySelectorMask deleted state mask.
Proof.
  unfold applySelectorMask at 2 3.
  destruct (length state =? 0)%nat eqn:E.
  - unfold applySelectorMask. rewrite E. reflexivity.
  - unfold applySelectorMask at 1. rewrite mask_loop_length, E.
    apply list_eq. intros j. rewrite !mask_loop_lookup.
    case_decide; [|reflexivity].
    destruct (state !! j); simpl; [|reflexivity].
    rewrite mask_byte_idem. reflexivity.
Qed.

(** *** Selector Resolver *)

Lemma find_box_spec l :
  match find_box l with
  | Some (SelBox p sz) => exists l1 l2, l = l1 ++ BoxShape p (vx sz) (vy sz) (vz sz) :: l2 /\
                                        Forall (fun e => is_box e = false) l1
  | Some (SelSphere _ _) => False
  | None => Forall (fun e => is_box e = false) l
  end.
Proof.
  induction l as [|e l IH]; simpl; [constructor|].
  unfold find_box in *. destruct e as [p x y z|p r|]; simpl.
  - exists [], l. done.
  - destruct (head _) as [[p' sz|]|]; [|done|].
    + destruct IH as (l1 & l2 & -> & F). exists (SphereShape p r :: l1), l2. split; [done|].
      constructor; done.
    + constructor; done.
  - destruct (head _) as [[p' sz|]|]; [|done|].
    + destruct IH as (l1 & l2 & -> & F). exists (OtherDebug :: l1), l2. split; [done|].
      constructor; done.
    + constructor; done.
Qed.

Lemma find_sphere_spec l :
  match find_sphere l with
  | Some (SelSphere p r) => exists l1 l2, l = l1 ++ SphereShape p r :: l2 /\
                                          Forall (fun e => is_sphere e = false) l1
  | Some (SelBox _ _) => False
  | None => Forall (fun e => is_sphere e = false) l
  end.
Proof.
  induction l as [|e l IH]; simpl; [constructor|].
  unfold find_sphere in *. destruct e as [p x y z|p r|]; simpl.
  - destruct (head _) as [[|p' r']|]; [done| |].
    + destruct IH as (l1 & l2 & -> & F). exists (BoxShape p x y z :: l1), l2. split; [done|].
      constructor; done.
    + constructor; done.
  - exists [], l. done.
  - destruct (head _) as [[|p' r']|]; [done| |].
    + destruct IH as (l1 & l2 & -> & F). exists (OtherDebug :: l1), l2. split; [done|].
      constructor; done.
    + constructor; done.
Qed.

(** [getActiveSelector]: the first box among the scene's debug elements wins;
    a sphere is used only when there is no box, and then the first sphere;
    with neither there is no selector. *)
Theorem getActiveSelector_spec (l : list element) :
  match getActiveSelector (Some l) with
  | Some (SelBox p sz) =>
      exists l1 l2, l = l1 ++ BoxShape p (vx sz) (vy sz) (vz sz) :: l2 /\
                    Forall (fun e => is_box e = false) l1
  | Some (SelSphere p r) =>
      Forall (fun e => is_box e = false) l /\
      exists l1 l2, l = l1 ++ SphereShape p r :: l2 /\ Forall (fun e => is_sphere e = false) l1
  | None => Forall (fun e => is_box e = false /\ is_sphere e = false) l
  end.
Proof.
  pose proof (find_box_spec l) as HB. pose proof (find_sphere_spec l) as HS.
  simpl. destruct (find_box l) as [[p sz|]|]; [done|done|].
  destruct (find_sphere l) as [[|p r]|]; [done|split; done|].
  apply Forall_and; done.
Qed.

(** *** Frame Registry: the stored order *)

Lemma sort_insert_last {A} (cmp : A -> A -> comparison) x l :
  Forall (fun y => cmp x y <> Lt) l -> sort_insert cmp x l = l ++ [x].
Proof.
  induction 1 as [|y l Hy _ IH]; simpl; [done|].
  destruct (cmp x y); [|done|]; rewrite IH; done.
Qed.

Lemma js_sort_id {A} (cmp : A -> A -> comparison) (l : list A) :
  (forall i j a b, (i < j)%nat -> l !! i = Some a -> l !! j = Some b -> cmp b a <> Lt) ->
  js_sort cmp l = l.
Proof.
  induction l as [|x l IH] using rev_ind; intros H; [done|].
  unfold js_sort in *. rewrite fold_left_app. simpl. rewrite IH.
  - apply sort_insert_last. apply Forall_forall. intros y Hy.
    apply list_elem_of_lookup in Hy as [i Hi].
    apply (H i (length l) y x).
    + apply lookup_lt_Some in Hi. done.
    + rewrite lookup_app_l; [done|]. by apply lookup_lt_Some in Hi.
    + rewrite lookup_app_r by lia. rewrite Nat.sub_diag. done.
  - intros i j a b Hij Ha Hb. apply (H i j a b Hij).
    + rewrite lookup_app_l; [done|]. by apply lookup_lt_Some in Ha.
    + rewrite lookup_app_l; [done|]. by apply lookup_lt_Some in Hb.
Qed.

(** [setFrames] stores a reordering of the registered list and announces its
    length, whatever the names are (the comparator need not be consistent). *)
Theorem setFrames_perm c src l :
  c_arrays c !! src = Some l ->
  seqFiles (setFrames c src) ≡ₚ l /\ c_trace (setFrames c src) = c_trace c ++ [EvFrames (length l)].
Proof.
  intros Hl. rewrite setFrames_seqFiles, Hl. simpl. split; [apply js_sort_perm|].
  unfold setFrames. simpl. rewrite Hl, !lookup_insert_eq. simpl.
  by rewrite (Permutation_length (js_sort_perm sorter l)).
Qed.

Lemma setFrames_perm_witness :
  seqFiles (setFrames (mkCtl {[0%nat := ["b.ply"; "a3.ply"; "c"]]} 1 0 None (-1) false (-1) false 0 []) 0)
    ≡ₚ ["b.ply"; "a3.ply"; "c"] /\
  c_trace (setFrames (mkCtl {[0%nat := ["b.ply"; "a3.ply"; "c"]]} 1 0 None (-1) false (-1) false 0 []) 0)
    = [] ++ [EvFrames (length ["b.ply"; "a3.ply"; "c"])].
Proof.
  apply (setFrames_perm (mkCtl {[0%nat := ["b.ply"; "a3.ply"; "c"]]} 1 0 None (-1) false (-1) false 0 []) 0).
  vm_compute. reflexivity.
Defined.

(** When no registered name carries a frame number, the frames keep the order
    in which they were registered. *)
Theorem setFrames_unnumbered_keeps_order c src l :
  c_arrays c !! src = Some l -> Forall (fun a => frame_number a = None) l ->
  seqFiles (setFrames c src) = l.
Proof.
  intros Hl F. rewrite setFrames_seqFiles, Hl. simpl. apply js_sort_id.
  intros i j a b _ Ha Hb. rewrite Forall_lookup in F.
  unfold sorter. rewrite (F _ _ Hb). done.
Qed.

Lemma setFrames_unnumbered_keeps_order_witness :
  seqFiles (setFrames (mkCtl {[0%nat := ["b.ply"; "a.ply"; "scan3.obj"]]} 1 0 None (-1) false (-1) false 0 []) 0)
    = ["b.ply"; "a.ply"; "scan3.obj"].
Proof.
  apply (setFrames_unnumbered_keeps_order
           (mkCtl {[0%nat := ["b.ply"; "a.ply"; "scan3.obj"]]} 1 0 None (-1) false (-1) false 0 []) 0).
  - vm_compute. reflexivity.
  - repeat constructor.
Defined.

(** A list whose names all carry frame numbers that never decrease along the
    list is stored unchanged: equal frame numbers keep their order. *)
Theorem setFrames_sorted_keeps_order c src l :
  c_arrays c !! src = Some l ->
  (forall i j a b, (i < j)%nat -> l !! i = Some a -> l !! j = Some b ->
     exists x y, frame_number a = Some x /\ frame_number b = Some y /\ jsnum_le x y = true) ->
  seqFiles (setFrames c src) = l.
Proof.
  intros Hl H. rewrite setFrames_seqFiles, Hl. simpl. apply js_sort_id.
  intros i j a b Hij Ha Hb.
  destruct (H i j a b Hij Ha Hb) as (x & y & Ex & Ey & Hle).
  unfold sorter. rewrite Ex, Ey.
  destruct x, y; simpl in *; try done.
  apply Z.leb_le in Hle. intros Hc. rewrite Z.compare_lt_iff in Hc. lia.
Qed.

Lemma setFrames_sorted_keeps_order_witness :
  seqFiles (setFrames (mkCtl {[0%nat := ["f1.ply"; "g1.ply"; "f2.compressed.ply"]]} 1 0 None (-1) false (-1) false 0 []) 0)
    = ["f1.ply"; "g1.ply"; "f2.compressed.ply"].
Proof.
  apply (setFrames_sorted_keeps_order
           (mkCtl {[0%nat := ["f1.ply"; "g1.ply"; "f2.compressed.ply"]]} 1 0 None (-1) false (-1) false 0 []) 0).
  - vm_compute. reflexivity.
  - intros i j a b Hij Ha Hb.
    destruct i as [|[|[|i]]]; destruct j as [|[|[|j]]]; try lia; simpl in Ha, Hb;
      try discriminate; injection Ha as <-; injection Hb as <-;
      vm_compute; eexists; eexists; (split; [reflexivity|split; [reflexivity|reflexivity]]).
Defined.

(** *** Frame Controller: concurrent loads *)

(** The loading guard is checked before the reset prompt only: with unsaved
    changes, two requests made before the user answers both wait at the
    prompt, and if both are confirmed both imports start, each after its own
    scene clear. *)
Theorem dirty_requests_load_concurrently c ps f1 f2 :
  c_loading c = false -> c_dirty c = true ->
  in_range c f1 = true -> in_range c f2 = true -> f1 <> c_frame c -> f2 <> c_frame c ->
  exists n1 n2,
    seqFiles c !! Z.to_nat f1 = Some n1 /\ seqFiles c !! Z.to_nat f2 = Some n2 /\
    run (c, ps) [ACall f1; ACall f2; APopup (length ps) true; APopup (S (length ps)) true]
    = (mkCtl (c_arrays c) (c_next_arr c) (c_seq c) None (c_frame c) true (c_next c) true (c_fresh c)
             (c_trace c ++ [EvSceneClear; EvImport f1 n1] ++ [EvSceneClear; EvImport f2 n2]),
       ps ++ [PAwaitImport f1; PAwaitImport f2]).
Proof.
  intros Hl Hd Hr1 Hr2 Hf1 Hf2.
  assert (Hn : forall f, in_range c f = true -> exists n, seqFiles c !! Z.to_nat f = Some n).
  { intros f Hr. unfold in_range in Hr. apply andb_true_iff in Hr as [H1 H2].
    apply Z.leb_le in H1. apply Z.ltb_lt in H2.
    destruct (seqFiles c !! Z.to_nat f) as [n|] eqn:E; [by exists n|].
    apply lookup_ge_None in E. lia. }
  destruct (Hn f1 Hr1) as [n1 E1], (Hn f2 Hr2) as [n2 E2].
  exists n1, n2. split; [done|]. split; [done|].
  assert (Hp : forall f, in_range c f = true -> f <> c_frame c ->
            setFrame_entry c f = (c, PAwaitPopup f)).
  { intros f Hr Hf. unfold setFrame_entry. rewrite Hr, Hl, Hd. simpl.
    replace (f =? c_frame c) with false by (symmetry; apply Z.eqb_neq; done). done. }
  unfold run. simpl. rewrite (Hp f1 Hr1 Hf1). simpl. rewrite (Hp f2 Hr2 Hf2). simpl.
  rewrite <- app_assoc. simpl.
  rewrite lookup_app_r, Nat.sub_diag by lia. simpl.
  unfold start_load, seqFiles in *. simpl. rewrite E1. simpl.
  unfold replace_spawn. rewrite app_nil_r.
  rewrite (insert_app_r_alt ps) by lia. rewrite Nat.sub_diag. simpl.
  rewrite lookup_app_r by lia. replace (S (length ps) - length ps)%nat with 1%nat by lia.
  change ([PAwaitImport f1; PAwaitPopup f2] !! 1%nat) with (Some (PAwaitPopup f2)).
  cbv iota beta. unfold start_load, seqFiles. simpl. rewrite E2. simpl.
  rewrite app_nil_r, (insert_app_r_alt ps) by lia.
  replace (S (length ps) - length ps)%nat with 1%nat by lia. simpl.
  f_equal. match goal with |- ?a = ?b =>
    assert (Ht : c_trace a = c_trace b); [simpl; rewrite <- !app_assoc; reflexivity|] end.
  match goal with |- ?a = ?b => change a with (mkCtl (c_arrays a) (c_next_arr a) (c_seq a) (c_splat a)
    (c_frame a) (c_loading a) (c_next a) (c_dirty a) (c_fresh a) (c_trace a)) end.
  rewrite Ht. simpl. rewrite Hd. reflexivity.
Qed.

Lemma dirty_requests_load_concurrently_witness :
  let c := mkCtl {[0%nat := ["f1.ply"; "f2.ply"; "f3.ply"]]} 1 0 (Some 0%nat) 0 false (-1) true 1 [] in
  exists n1 n2,
    seqFiles c !! Z.to_nat 1 = Some n1 /\ seqFiles c !! Z.to_nat 2 = Some n2 /\
    run (c, []) [ACall 1; ACall 2; APopup (length (@nil proc)) true; APopup (S (length (@nil proc))) true]
    = (mkCtl (c_arrays c) (c_next_arr c) (c_seq c) None (c_frame c) true (c_next c) true (c_fresh c)
             (c_trace c ++ [EvSceneClear; EvImport 1 n1] ++ [EvSceneClear; EvImport 2 n2]),
       [] ++ [PAwaitImport 1; PAwaitImport 2]).
Proof.
  intros c. apply (dirty_requests_load_concurrently c [] 1 2);
    try reflexivity; subst c; simpl; lia.
Defined.

Lemma inflight_app ps p :
  inflight (ps ++ [p]) = (inflight ps + if loading_proc p then 1 else 0)%nat.
Proof.
  unfold inflight. rewrite List.filter_app, length_app. simpl. destruct (loading_proc p); done.
Qed.

Lemma inflight_insert ps i q p : ps !! i = Some q ->
  (inflight (<[i := p]> ps) + if loading_proc q then 1 else 0)%nat
  = (inflight ps + if loading_proc p then 1 else 0)%nat.
Proof.
  intros Hq. assert (Hi : (i < length ps)%nat) by (by apply lookup_lt_Some in Hq).
  rewrite insert_take_drop by done.
  pose proof (take_drop_middle ps i q Hq) as Hm.
  set (l1 := take i ps) in *. set (l2 := drop (S i) ps) in *. rewrite <- Hm.
  unfold inflight. rewrite !List.filter_app, !length_app. simpl.
  destruct (loading_proc p), (loading_proc q); simpl; lia.
Qed.

Lemma setFrame_entry_clean c f :
  c_dirty c = false ->
  c_dirty (setFrame_entry c f).1 = false /\ popup_proc (setFrame_entry c f).2 = false /\
  (loading_proc (setFrame_entry c f).2 = true ->
     c_loading c = false /\ c_loading (setFrame_entry c f).1 = true) /\
  (c_loading c = true -> c_loading (setFrame_entry c f).1 = true).
Proof.
  intros Hd. unfold setFrame_entry.
  destruct (negb (in_range c f)); [simpl; done|].
  destruct (c_loading c) eqn:Hl; [simpl; done|].
  destruct (f =? c_frame c); [simpl; rewrite Hl; done|].
  rewrite Hd. unfold start_load.
  destruct (seqFiles (set_loading c true) !! Z.to_nat f); simpl; done.
Qed.

Lemma single_load_step x a :
  a <> ADirty true -> single_load x -> single_load (step x a).
Proof.
  destruct x as [c ps]. intros Ha (Hd & Hp & Hle & Hl). simpl in *.
  destruct a as [f|i yes|i o|i|b|l]; simpl.
  - pose proof (setFrame_entry_clean c f Hd) as (Hd' & Hp' & Hl1 & Hl2).
    destruct (setFrame_entry c f) as [c' p]. simpl in *.
    repeat split; cbn [fst snd]; [done| |..].
    + apply Forall_app; split; [done|]. by constructor.
    + rewrite inflight_app. destruct (loading_proc p) eqn:E.
      * destruct (Hl1 eq_refl) as [Hf _]. destruct (inflight ps) as [|[|]]; [lia| |lia].
        by rewrite (Hl eq_refl) in Hf.
      * lia.
    + rewrite inflight_app. destruct (loading_proc p) eqn:E.
      * intros _. by apply Hl1.
      * rewrite Nat.add_0_r. intros H1. by apply Hl2, Hl.
  - destruct (ps !! i) as [[]|] eqn:E; try (repeat split; done).
    apply Forall_lookup_1 with (i := i) (x := PAwaitPopup frame) in Hp; [discriminate|done].
  - destruct (ps !! i) as [[]|] eqn:E; try (repeat split; done).
    pose proof (inflight_insert ps i _ (match o with IOk => PAwaitRender frame (c_fresh c)
                                                  | IEmpty => PFailed "TypeError"
                                                  | IErr e => PFailed e end) E) as Hi.
    simpl in Hi.
    destruct o; simpl; unfold replace_spawn; rewrite app_nil_r; simpl in Hi;
      (repeat split; cbn [fst snd]; [done| apply Forall_insert; done | lia | intros H1; apply Hl; lia]).
  - destruct (ps !! i) as [[]|] eqn:E; try (repeat split; done).
    pose proof (inflight_insert ps i _ PDone E) as Hi. simpl in Hi.
    assert (H0 : inflight (<[i:=PDone]> ps) = 0%nat) by lia.
    assert (Hp0 : Forall (fun p => popup_proc p = false) (<[i:=PDone]> ps))
      by (apply Forall_insert; done).
    unfold resume_render.
    assert (Hd1 : c_dirty (adopt_frame c frame s) = false) by (simpl; done).
    destruct (c_next (adopt_frame c frame s) =? -1).
    + unfold replace_spawn. rewrite app_nil_r. simpl.
      repeat split; cbn [fst snd]; [done|done|lia|lia].
    + assert (Hd2 : c_dirty (set_next (adopt_frame c frame s) (-1)) = false) by (simpl; done).
      pose proof (setFrame_entry_clean _ (c_next (adopt_frame c frame s)) Hd2)
        as (Hd' & Hp' & Hl1 & Hl2).
      destruct (setFrame_entry (set_next (adopt_frame c frame s) (-1)) (c_next (adopt_frame c frame s)))
        as [c' p]. simpl in *. unfold replace_spawn.
      repeat split; cbn [fst snd]; [done| |..].
      * apply Forall_app; split; [done|]. by constructor.
      * rewrite inflight_app, H0. destruct (loading_proc p); simpl; lia.
      * rewrite inflight_app, H0. destruct (loading_proc p) eqn:E'; [|simpl; lia].
        intros _. by apply Hl1.
  - destruct b; [done|]. repeat split; done.
  - repeat split; done.
Qed.

(** As long as the scene never gets unsaved changes, the controller never
    shows the reset prompt and at most one [setFrame] call is loading a frame
    at any time (suspended at its import or at its first render); while one
    is, [sequenceLoading] is set. *)
Theorem clean_scene_single_load (acts : list action) :
  Forall (fun a => a <> ADirty true) acts ->
  Forall (fun p => popup_proc p = false) (run (ctl_init, []) acts).2 /\
  (inflight (run (ctl_init, []) acts).2 <= 1)%nat /\
  (inflight (run (ctl_init, []) acts).2 = 1%nat -> c_loading (run (ctl_init, []) acts).1 = true).
Proof.
  intros Hacts.
  assert (H : forall x, single_load x -> single_load (run x acts)).
  { unfold run. induction Hacts as [|a acts Ha _ IH]; intros x Hx; simpl; [done|].
    apply IH, single_load_step; done. }
  assert (H0 : single_load (ctl_init, [])).
  { unfold single_load, inflight. simpl. repeat split; try constructor; lia. }
  destruct (H _ H0) as (_ & ? & ? & ?). done.
Qed.

Lemma clean_scene_single_load_witness :
  Forall (fun p => popup_proc p = false)
    (run (ctl_init, []) [ASetFrames ["f1.ply"; "f2.ply"; "f3.ply"]; ACall 1; ACall 2; AImport 0 IOk; ARender 0]).2 /\
  (inflight (run (ctl_init, []) [ASetFrames ["f1.ply"; "f2.ply"; "f3.ply"]; ACall 1; ACall 2; AImport 0 IOk; ARender 0]).2 <= 1)%nat /\
  (inflight (run (ctl_init, []) [ASetFrames ["f1.ply"; "f2.ply"; "f3.ply"]; ACall 1; ACall 2; AImport 0 IOk; ARender 0]).2 = 1%nat ->
   c_loading (run (ctl_init, []) [ASetFrames ["f1.ply"; "f2.ply"; "f3.ply"]; ACall 1; ACall 2; AImport 0 IOk; ARender 0]).1 = true).
Proof.
  apply clean_scene_single_load. repeat constructor; discriminate.
Defined.

(** *** Export Pipeline: settlement and the successful run *)

Lemma apply_state_next d sel old l fe s r s' :
  apply_state d sel old l fe s = (r, s') -> x_next s' = x_next s.
Proof.
  unfold apply_state. destruct sel as [sel|].
  - xunfold. destruct (_ =? 0)%nat; [intros [= _ <-]; done|].
    destruct (fe_intersect fe); simpl; intros [= _ <-]; done.
  - destruct old as [ol|]; xunfold; [|intros [= _ <-]; done].
    destruct (_ =? _)%nat; simpl; intros [= _ <-]; done.
Qed.

Lemma export_frame_ok_next d sel old i fe s :
  frame_error sel fe = None ->
  exists s', export_frame d sel old i fe s = (Ok tt, s') /\ x_next s' = S (x_next s) /\
    x_trace s' = x_trace s ++ frame_events i (x_next s).
Proof.
  unfold frame_error. intros H.
  destruct (fe_load fe) as [st|e] eqn:Eload; [|discriminate].
  unfold export_frame. xunfold. rewrite Eload. simpl.
  match goal with
  | |- context [apply_state d sel old ?l fe ?s1] =>
      destruct (apply_state_outcome d sel old l fe s1 st ltac:(simpl; apply lookup_insert_eq))
        as (s2 & E2 & T2); pose proof (apply_state_next _ _ _ _ _ _ _ _ E2) as N2; rewrite E2
  end.
  destruct (mask_error sel st fe); [discriminate|].
  destruct (fe_handle fe), (fe_writable fe), (fe_close fe), (fe_serialize fe); try discriminate.
  simpl. eexists. split; [reflexivity|]. simpl in *. rewrite N2, T2. split; [done|]. simpl.
  rewrite <- !app_assoc. reflexivity.
Qed.

Lemma export_loop_ok d sel old envs files : forall i0 s,
  (forall j, (i0 <= j < i0 + length files)%nat -> frame_error sel (envs j) = None) ->
  exists s', export_loop d sel old envs i0 files s = (Ok tt, s') /\
    x_next s' = (x_next s + length files)%nat /\
    x_trace s' = x_trace s ++ flat_map (fun j => frame_events j (x_next s + (j - i0))) (seq i0 (length files)).
Proof.
  induction files as [|f files IH]; intros i0 s Hok; simpl in Hok |- *.
  - exists s. rewrite Nat.add_0_r, app_nil_r. done.
  - unfold mbind at 1, X_bind at 1.
    destruct (export_frame_ok_next d sel old i0 (envs i0) s ltac:(apply Hok; lia))
      as (s1 & E1 & N1 & T1).
    rewrite E1.
    destruct (IH (S i0) s1 ltac:(intros j Hj; apply Hok; lia)) as (s2 & E2 & N2 & T2).
    exists s2. split; [done|]. split; [lia|].
    rewrite T2, T1, N1, Nat.sub_diag, Nat.add_0_r, <- app_assoc.
    unfold frame_events at 1. simpl. do 8 f_equal.
    rewrite !flat_map_concat_map. f_equal. apply map_ext_in. intros j Hj. apply in_seq in Hj.
    f_equal. lia.
Qed.

(** When every collaborator succeeds for every frame, the export loads,
    attaches, writes and closes the frames one after the other, from frame 0
    to the last, each into one fresh state array, then shows the success
    popup and ends the progress. *)
Theorem export_success_trace d files ls scene envs s :
  ls_scene ls = Some scene -> files <> [] ->
  (forall j, (j < length files)%nat -> frame_error (getActiveSelector (Some scene)) (envs j) = None) ->
  exists s', plysequence_export d files (Some ls) envs s = (Ok tt, s') /\
    x_next s' = (x_next s + length files)%nat /\
    x_trace s' = x_trace s ++ [EvProgressStart; EvProgress (-1)] ++
      flat_map (fun j => frame_events j (x_next s + j)) (seq 0 (length files)) ++
      [EvPopupSuccess; EvProgressEnd].
Proof.
  intros Hscene Hne Hok.
  unfold plysequence_export.
  replace (length files =? 0)%nat with false
    by (symmetry; apply Nat.eqb_neq; intros H; apply Hne; by apply length_zero_iff_nil).
  rewrite Hscene.
  remember (getActiveSelector (Some scene)) as sel eqn:Hsel.
  destruct (export_loop_ok d sel (ls_state ls) envs files 0
              (mkX (x_heap s) (x_next s) ((x_trace s ++ [EvProgressStart]) ++ [EvProgress (-1)])))
    as (s2 & E2 & N2 & T2); [intros j Hj; subst sel; apply Hok; lia|].
  eexists. split.
  - unfold try_finally, try_catch, mbind, X_bind, emit. simpl. rewrite E2. reflexivity.
  - assert (Hm : map (fun j => frame_events j (x_next s + (j - 0))) (seq 0 (length files))
                 = map (fun j => frame_events j (x_next s + j)) (seq 0 (length files)))
      by (apply map_ext_in; intros j _; by rewrite Nat.sub_0_r).
    simpl. split; [done|]. rewrite T2. simpl. rewrite !flat_map_concat_map, Hm, <- !app_assoc.
    reflexivity.
Qed.

Lemma export_success_trace_witness :
  let s := mkX {[0%nat := [0; 1]]} 1 [] in
  let envs := fun _ : nat => Build_frame_env (Ok [0; 0]) (Ok [255; 0]) (Ok tt) (Ok tt) (Ok tt) (Ok tt) in
  let ls := {| ls_state := Some 0%nat; ls_scene := Some [SphereShape (Build_vec3 0 0 0) 1] |} in
  exists s', plysequence_export 4 ["a0.ply"; "a1.ply"] (Some ls) envs s = (Ok tt, s') /\
    x_next s' = (x_next s + length ["a0.ply"; "a1.ply"])%nat /\
    x_trace s' = x_trace s ++ [EvProgressStart; EvProgress (-1)] ++
      flat_map (fun j => frame_events j (x_next s + j)) (seq 0 (length ["a0.ply"; "a1.ply"])) ++
      [EvPopupSuccess; EvProgressEnd].
Proof.
  intros s envs ls.
  apply (export_success_trace 4 ["a0.ply"; "a1.ply"] ls [SphereShape (Build_vec3 0 0 0) 1] envs s).
  - reflexivity.
  - discriminate.
  - intros j _. reflexivity.
Defined.

Lemma emits_mono (P Q : event -> Prop) {A} (m : X A) :
  (forall ev, P ev -> Q ev) -> emits P m -> emits Q m.
Proof.
  intros HPQ Hm s r s' E. destruct (Hm s r s' E) as (evs & T & F).
  exists evs. split; [done|]. eapply Forall_impl; [exact F|exact HPQ].
Qed.

Lemma emits_export_frame d sel old i fe : emits (loop_event i) (export_frame d sel old i fe).
Proof. unfold export_frame, apply_state. emits_tac; simpl; done. Qed.

Lemma emits_export_loop d sel old envs files : forall i0,
  emits (fun ev => exists j, (i0 <= j < i0 + length files)%nat /\ loop_event j ev)
        (export_loop d sel old envs i0 files).
Proof.
  induction files as [|f files IH]; intros i0; simpl; emits_tac.
  - eapply emits_mono; [|apply emits_export_frame]. intros ev Hev. exists i0. split; [lia|done].
  - eapply emits_mono; [|apply IH]. intros ev (j & Hj & Hev). exists j. split; [lia|done].
Qed.

(** Whatever the collaborators do, an export that passes the guards fires
    the progress start, reports progress [-1], runs the frame loop, shows
    exactly one popup (success, or the failure message), and ends with the
    progress end; every event in between belongs to a frame of the
    sequence. *)
Theorem export_settles d files ls scene envs s :
  ls_scene ls = Some scene -> files <> [] ->
  exists evs pop,
    x_trace (snd (plysequence_export d files (Some ls) envs s))
    = x_trace s ++ [EvProgressStart; EvProgress (-1)] ++ evs ++ [pop; EvProgressEnd] /\
    (pop = EvPopupSuccess \/ exists e, pop = EvPopupError ("'" ++ e ++ "'")) /\
    Forall (fun ev => exists j, (j < length files)%nat /\ loop_event j ev) evs.
Proof.
  intros Hscene Hne.
  unfold plysequence_export.
  replace (length files =? 0)%nat with false
    by (symmetry; apply Nat.eqb_neq; intros H; apply Hne; by apply length_zero_iff_nil).
  rewrite Hscene.
  remember (getActiveSelector (Some scene)) as sel eqn:Hsel.
  unfold try_finally, try_catch, mbind, X_bind, emit at 1 2. simpl.
  set (s1 := mkX (x_heap s) (x_next s) ((x_trace s ++ [EvProgressStart]) ++ [EvProgress (-1)])).
  destruct (export_loop d sel (ls_state ls) envs 0 files s1) as [r s2] eqn:E.
  destruct (emits_export_loop d sel (ls_state ls) envs files 0 s1 r s2 E) as (evs & T & F).
  exists evs. destruct r as [[]|e]; simpl.
  - exists EvPopupSuccess. split; [|split; [by left|]].
    + rewrite T. subst s1. simpl. rewrite <- !app_assoc. done.
    + eapply Forall_impl; [exact F|]. intros ev (j & Hj & Hev). exists j. split; [lia|done].
  - exists (EvPopupError ("'" ++ e ++ "'")). split; [|split; [right; by exists e|]].
    + rewrite T. subst s1. simpl. rewrite <- !app_assoc. done.
    + eapply Forall_impl; [exact F|]. intros ev (j & Hj & Hev). exists j. split; [lia|done].
Qed.

Lemma export_settles_witness :
  exists evs pop,
    x_trace (snd (plysequence_export 4 ["a0.ply"; "a1.ply"]
                    (Some {| ls_state := Some 0%nat; ls_scene := Some [] |})
                    (fun _ => Build_frame_env (Ok [0]) (Ok []) (Ok tt) (Err "denied") (Ok tt) (Ok tt))
                    (mkX {[0%nat := [0]]} 1 [])))
    = x_trace (mkX {[0%nat := [0]]} 1 []) ++ [EvProgressStart; EvProgress (-1)] ++ evs ++ [pop; EvProgressEnd] /\
    (pop = EvPopupSuccess \/ exists e, pop = EvPopupError ("'" ++ e ++ "'")) /\
    Forall (fun ev => exists j, (j < length ["a0.ply"; "a1.ply"])%nat /\ loop_event j ev) evs.
Proof.
  apply (export_settles 4 ["a0.ply"; "a1.ply"] {| ls_state := Some 0%nat; ls_scene := Some [] |} []).
  - reflexivity.
  - discriminate.
Defined.

(** *** Frame Registry: what the frame-number regex accepts *)

Lemma suffix_ok_cases suf : Regex.suffix_ok suf = true ->
  suf = list_ascii_of_string ".compressed.ply" \/ suf = list_ascii_of_string ".ply".
Proof.
  unfold Regex.suffix_ok. intros H.
  apply orb_true_iff in H as [H|H]; apply bool_decide_eq_true in H; auto.
Qed.

Lemma suffix_ok_dot suf : Regex.suffix_ok suf = true -> exists r, suf = "."%char :: r.
Proof. intros H. apply suffix_ok_cases in H as [->| ->]; eexists; reflexivity. Qed.

Lemma digit_run_app ds c r :
  Forall (fun x => Regex.is_digit x = true) ds -> Regex.is_digit c = false ->
  Regex.digit_run (ds ++ c :: r) = length ds.
Proof.
  intros F Hc. induction F as [|x ds Hx _ IH]; simpl.
  - by rewrite Hc.
  - by rewrite Hx, IH.
Qed.

Lemma digit_run_take k s : (k <= Regex.digit_run s)%nat ->
  Forall (fun x => Regex.is_digit x = true) (take k s) /\ (k <= length s)%nat.
Proof.
  induction s as [|x s IH] in k |- *; simpl; [intros; split; [rewrite take_nil; constructor|lia]|].
  destruct (Regex.is_digit x) eqn:Hx; [|intros; assert (k = 0%nat) as -> by lia; split; [constructor|lia]].
  destruct k as [|k]; intros Hk; [split; [constructor|lia]|].
  destruct (IH k ltac:(lia)) as [F Hl]. simpl. split; [by constructor|lia].
Qed.

Lemma try_digits_some k s ds : Regex.try_digits k s = Some ds ->
  exists k', (1 <= k' <= k)%nat /\ ds = take k' s /\ Regex.suffix_ok (drop k' s) = true.
Proof.
  induction k as [|k IH]; simpl; [discriminate|].
  destruct (Regex.suffix_ok (drop (S k) s)) eqn:E.
  - intros [= <-]. exists (S k). split; [lia|done].
  - intros H. destruct (IH H) as (k' & Hk & -> & Hs). exists k'. split; [lia|done].
Qed.

Lemma match_at_spec s ds :
  Regex.match_at s = Some ds <->
  exists suf, s = ds ++ suf /\ ds <> [] /\ Forall (fun x => Regex.is_digit x = true) ds /\
              Regex.suffix_ok suf = true.
Proof.
  split.
  - unfold Regex.match_at. intros H.
    destruct (try_digits_some _ _ _ H) as (k & Hk & -> & Hs).
    destruct (digit_run_take k s ltac:(lia)) as [F Hl].
    exists (drop k s). split; [by rewrite take_drop|]. split; [|done].
    intros E. apply (f_equal length) in E. rewrite length_take in E. simpl in E. lia.
  - intros (suf & -> & Hne & F & Hs).
    destruct (suffix_ok_dot suf Hs) as [r ->].
    unfold Regex.match_at. rewrite digit_run_app by done.
    destruct ds as [|d ds']; [done|]. simpl length. simpl Regex.try_digits.
    change (S (length ds')) with (length (d :: ds')).
    rewrite drop_app_length, Hs, take_app_length. done.
Qed.

Lemma last_digit l ds : ds <> [] -> Forall (fun x => Regex.is_digit x = true) ds ->
  exists c, last (l ++ ds) = Some c /\ Regex.is_digit c = true.
Proof.
  intros Hne F. destruct ds as [|d ds _] using rev_ind; [done|].
  exists d. rewrite app_assoc, last_snoc. split; [done|].
  apply Forall_app in F as [_ F]. by inversion F.
Qed.

Lemma group2_eq s : Regex.group2 s =
  match Regex.match_at s with
  | Some g => Some g
  | None => match s with [] => None | _ :: s' => Regex.group2 s' end
  end.
Proof. destruct s; reflexivity. Qed.

(** The suffix [.ply] or [.compressed.ply] after a name that ends in a digit
    is determined by the whole string. *)
Lemma suffix_split_unique a b suf suf' :
  Regex.suffix_ok suf = true -> Regex.suffix_ok suf' = true ->
  (exists c, last a = Some c /\ Regex.is_digit c = true) ->
  (exists c, last b = Some c /\ Regex.is_digit c = true) ->
  a ++ suf = b ++ suf' -> a = b /\ suf = suf'.
Proof.
  assert (Hcp : list_ascii_of_string ".compressed.ply"
                = (list_ascii_of_string ".compresse" ++ ["d"%char]) ++ list_ascii_of_string ".ply")
    by reflexivity.
  assert (Hd : forall l x, last (l ++ (list_ascii_of_string ".compresse" ++ ["d"%char])) = Some x ->
                           Regex.is_digit x = false).
  { intros l x. rewrite app_assoc, last_snoc. intros [= <-]. reflexivity. }
  intros Hs Hs' (c & Hc & Dc) (c' & Hc' & Dc') E.
  apply suffix_ok_cases in Hs as [-> | ->], Hs' as [-> | ->].
  - apply app_inv_tail in E. done.
  - exfalso. rewrite Hcp, (app_assoc a) in E. apply app_inv_tail in E. subst b.
    rewrite (Hd _ _ Hc') in Dc'. discriminate.
  - exfalso. rewrite Hcp, (app_assoc b) in E. apply app_inv_tail in E. subst a.
    rewrite (Hd _ _ Hc) in Dc. discriminate.
  - apply app_inv_tail in E. done.
Qed.

(** [name.toLowerCase().match(regex)?.[2]] is [ds] exactly when the
    lower-cased name splits as [pre ++ ds ++ suf] where [ds] is a non-empty
    run of digits not preceded by a digit and [suf] is [.ply] or
    [.compressed.ply]: group 2 is the whole run of digits before the
    extension, never a part of it. *)
Theorem group2_spec s ds :
  Regex.group2 s = Some ds <->
  exists pre suf, s = pre ++ ds ++ suf /\ ds <> [] /\
    Forall (fun x => Regex.is_digit x = true) ds /\ Regex.suffix_ok suf = true /\
    (forall c, last pre = Some c -> Regex.is_digit c = false).
Proof.
  split.
  - induction s as [|c s IH]; simpl.
    + unfold Regex.match_at. simpl. discriminate.
    + destruct (Regex.match_at (c :: s)) as [g|] eqn:Em.
      * intros [= <-]. apply match_at_spec in Em as (suf & E & Hne & F & Hs).
        exists [], suf. split; [done|]. split; [done|]. split; [done|]. split; [done|]. done.
      * intros H. destruct (IH H) as (pre & suf & -> & Hne & F & Hs & Hl).
        exists (c :: pre), suf. split; [done|]. split; [done|]. split; [done|]. split; [done|].
        intros x Hx. rewrite last_cons in Hx. destruct (last pre) as [y|] eqn:Ey.
        -- injection Hx as <-. by apply Hl.
        -- injection Hx as <-. apply last_None in Ey as ->.
           destruct (Regex.is_digit c) eqn:Dc; [|done].
           exfalso. assert (Regex.match_at (c :: ds ++ suf) = Some (c :: ds)) as E'.
           { apply match_at_spec. exists suf. split; [done|]. split; [done|].
             split; [by constructor|done]. }
           simpl in Em, E'. rewrite Em in E'. discriminate.
  - intros (pre & suf & -> & Hne & F & Hs & Hl).
    induction pre as [|c pre IH]; simpl.
    + assert (Em : Regex.match_at (ds ++ suf) = Some ds) by (apply match_at_spec; eauto).
      rewrite group2_eq, Em. done.
    + destruct (Regex.match_at (c :: pre ++ ds ++ suf)) as [g|] eqn:Em.
      * exfalso. apply match_at_spec in Em as (suf' & E & Hne' & F' & Hs').
        destruct (suffix_split_unique (c :: pre ++ ds) g suf suf' Hs Hs')
          as [Eg _].
        -- apply (last_digit (c :: pre) ds Hne F).
        -- replace g with ([] ++ g) by done. apply (last_digit [] g Hne' F').
        -- simpl. rewrite <- app_assoc. exact E.
        -- subst g. rewrite app_comm_cons in F'. apply Forall_app in F' as [F1 _].
           destruct (last (c :: pre)) as [x|] eqn:Ex.
           ++ specialize (Hl x eq_refl). apply last_Some in Ex as [l' El].
              rewrite El in F1. apply Forall_app in F1 as [_ F1]. inversion F1. congruence.
           ++ apply last_None in Ex. discriminate.
      * apply IH. intros x Hx. apply Hl. rewrite last_cons, Hx. done.
Qed.

(** A file name has a frame number exactly when its lower-cased form ends in
    a run of digits, not preceded by a digit, followed by [.ply] or
    [.compressed.ply]; the number is [parseInt] of that whole run. *)
Theorem frame_number_spec name n :
  frame_number name = Some n <->
  exists pre ds suf, Regex.toLowerCase name = pre ++ ds ++ suf /\ ds <> [] /\
    Forall (fun x => Regex.is_digit x = true) ds /\ Regex.suffix_ok suf = true /\
    (forall c, last pre = Some c -> Regex.is_digit c = false) /\ n = parseInt10 ds.
Proof.
  unfold frame_number. split.
  - destruct (Regex.group2 (Regex.toLowerCase name)) as [ds|] eqn:E; [|discriminate].
    intros [= <-]. apply group2_spec in E as (pre & suf & ? & ? & ? & ? & ?).
    exists pre, ds, suf. done.
  - intros (pre & ds & suf & E & Hne & F & Hs & Hl & ->).
    replace (Regex.group2 (Regex.toLowerCase name)) with (Some ds); [done|].
    symmetry. apply group2_spec. exists pre, suf. done.
Qed.
